(** * Bresenham and Xiaolin Wu line rasterizers (Test2/main.cpp)

    A shallow embedding of the three pure functions of [main.cpp],
    [generateLines], [bresenhamLine] and [xiaolinWuLine], of [processInput]
    and of the sine wave the render loop builds.

    Number model.
    - C++ [int] is a 32-bit two's complement integer.  It is embedded as a
      [Z] in [-2^31, 2^31 - 1], and every [int] operation of
      [bresenhamLine] and of the loop counter of [generateLines] is followed
      by [Int32.wrap], the reduction into that range.  Signed overflow is
      undefined behaviour in C++; [wrap] is what the usual compilers and
      machines produce.  The theorems on the path of [bresenhamLine] and on
      the iterations of [generateLines] carry a range hypothesis under which
      no operation overflows, so they do not depend on that choice;
      [bresenham_no_overflow] shows that endpoints within [-2^28, 2^28] are
      such a range.
    - C++ [float] (binary32) is embedded as the exact rationals [Q]: every
      operation is the exact one, rounding is not modelled.  Equality of
      computed values is therefore [Qeq], written [==].  Statements about
      [xiaolinWuLine] are statements about this exact arithmetic; where
      binary32 rounding is known to change a result the definition says so.
      The concrete inputs used below are small dyadic rationals on which the
      binary32 operations of the source are exact as well.
    - [generateLines] calls [cos] and [sin] on a [double] and stores the
      results as [float]; that function is embedded over the real numbers
      [R], without the two roundings. *)

From Stdlib Require Import ZArith QArith Qround Qabs List Bool Lia.
From Stdlib Require Import Reals.
From Stdlib Require Lqa Lra.
Import ListNotations.

(** ** The 32-bit [int] *)

Module Int32.

Open Scope Z_scope.

(** The value of an [int] expression whose mathematical result is [z]:
    [z] itself when it is in [-2^31, 2^31 - 1], and otherwise the value
    congruent to [z] modulo [2^32] in that range. *)
Definition wrap (z : Z) : Z := (z + 2 ^ 31) mod 2 ^ 32 - 2 ^ 31.

End Int32.
Import Int32.

(** ** The float operations the source uses *)

Module Float.

(** [std::floor] and [std::ceil] on a float return a float. *)
Definition floorf (x : Q) : Q := inject_Z (Qfloor x).
Definition ceilf (x : Q) : Q := inject_Z (Qceiling x).

(** [int(x)]: the conversion of a float to [int] truncates toward zero.
    When the truncated value is not an [int] the conversion is undefined in
    C++; the x86 conversion instruction then yields [-2^31]. *)
Definition to_int (x : Q) : Z :=
  let t := Z.quot (Qnum x) (Zpos (Qden x)) in
  if ((- 2 ^ 31 <=? t) && (t <=? 2 ^ 31 - 1))%Z then t else (- 2 ^ 31)%Z.

(** The implicit conversion [int -> float] in a mixed expression. *)
Definition of_int (z : Z) : Q := inject_Z z.

(** [a > b] and [a == b] on floats. *)
Definition gtb (a b : Q) : bool := negb (Qle_bool a b).
Definition eqb (a b : Q) : bool := Qeq_bool a b.

End Float.
Import Float.

(** [struct Vertex] and [struct Line]. *)

Module Vertex.
Record t : Type := make { x : Q; y : Q; r : Q; g : Q; b : Q; alpha : Q }.
End Vertex.

Module Line.
Record t : Type := make { x0 : R; y0 : R; x1 : R; y1 : R }.
End Line.

(** ** generateLines (lines 28-37) *)

Module Radial.

Section Loop.

Variables (x0 y0 radius angleStep : Z).

(** The body of the [for] loop for one value of [angle], in real
    arithmetic: the source computes [rad], [cos] and [sin] in [double] and
    rounds the four stored coordinates to [float]. *)
Definition line_at (angle : Z) : Line.t :=
  let rad := (IZR angle * 3.14159 / 180)%R in
  let x1 := (IZR x0 + IZR radius * cos rad)%R in
  let y1 := (IZR y0 + IZR radius * sin rad)%R in
  Line.make (IZR x0) (IZR y0) x1 y1.

(** [for (; angle < 360; angle += angleStep)] on the [int] counter
    [angle].  One unit of fuel is one iteration; [None] means the fuel ran
    out while [angle < 360] held. *)
Fixpoint loop (fuel : nat) (angle : Z) : option (list Line.t) :=
  if (angle <? 360)%Z then
    match fuel with
    | O => None
    | S fuel' =>
        option_map (cons (line_at angle))
          (loop fuel' (wrap (angle + angleStep)))
    end
  else Some [].

End Loop.

Definition generateLines (fuel : nat) (x0 y0 radius angleStep : Z)
  : option (list Line.t) :=
  loop x0 y0 radius angleStep fuel 0%Z.

(** The far end of a segment lies within [tolerance] of the point
    [(x, y)]. *)
Definition tolerance : R := (1 / 10000)%R.
Definition ends_near (l : Line.t) (x y : R) : Prop :=
  (Rabs (Line.x1 l - x) <= tolerance /\ Rabs (Line.y1 l - y) <= tolerance)%R.

End Radial.

(** ** bresenhamLine (lines 41-61) *)

Module Bresenham.

Open Scope Z_scope.

Section Loop.

(** The variables of [bresenhamLine] that the loop reads but never writes. *)
Variables (x1 y1 width height : Z) (dx sx dy sy : Z).

(** [while (true) { ... }] of lines 48-58, every [int] operation reduced
    by [wrap].  One unit of fuel is one iteration; [None] means the fuel ran
    out before the [break]. *)
Fixpoint loop (fuel : nat) (x0 y0 err : Z) : option (list Q) :=
  match fuel with
  | O => None
  | S fuel' =>
      let ndcX := ((2 * (of_int x0 + (1#2))) / of_int width - 1)%Q in
      let ndcY := ((2 * (of_int y0 + (1#2))) / of_int height - 1)%Q in
      if (x0 =? x1) && (y0 =? y1) then Some [ndcX; ndcY]
      else
        let e2 := wrap (2 * err) in
        let '(err, x0) :=
          if e2 >=? dy then (wrap (err + dy), wrap (x0 + sx)) else (err, x0) in
        let '(err, y0) :=
          if e2 <=? dx then (wrap (err + dx), wrap (y0 + sy)) else (err, y0) in
        option_map (fun rest => ndcX :: ndcY :: rest) (loop fuel' x0 y0 err)
  end.

(** The same loop, recording the loop state [(x0, y0, err)] at each pair of
    [push_back]s instead of the two normalised floats. *)
Fixpoint states (fuel : nat) (x0 y0 err : Z) : option (list (Z * Z * Z)) :=
  match fuel with
  | O => None
  | S fuel' =>
      if (x0 =? x1) && (y0 =? y1) then Some [(x0, y0, err)]
      else
        let e2 := wrap (2 * err) in
        let '(err', x0') :=
          if e2 >=? dy then (wrap (err + dy), wrap (x0 + sx)) else (err, x0) in
        let '(err', y0') :=
          if e2 <=? dx then (wrap (err' + dx), wrap (y0 + sy)) else (err', y0) in
        option_map (cons (x0, y0, err)) (states fuel' x0' y0' err')
  end.

End Loop.

(** Lines 44-46: [dx = std::abs(x1 - x0)], [dy = -std::abs(y1 - y0)],
    [err = dx + dy], each an [int]. *)
Definition bresenhamLine (fuel : nat) (x0 y0 x1 y1 width height : Z)
  : option (list Q) :=
  let dx := wrap (Z.abs (wrap (x1 - x0))) in
  let sx := if x0 <? x1 then 1 else -1 in
  let dy := wrap (- wrap (Z.abs (wrap (y1 - y0)))) in
  let sy := if y0 <? y1 then 1 else -1 in
  let err := wrap (dx + dy) in
  loop x1 y1 width height dx sx dy sy fuel x0 y0 err.

(** The loop states of [bresenhamLine], in order of emission. *)
Definition trace (fuel : nat) (x0 y0 x1 y1 : Z) : option (list (Z * Z * Z)) :=
  let dx := wrap (Z.abs (wrap (x1 - x0))) in
  let sx := if x0 <? x1 then 1 else -1 in
  let dy := wrap (- wrap (Z.abs (wrap (y1 - y0)))) in
  let sy := if y0 <? y1 then 1 else -1 in
  let err := wrap (dx + dy) in
  states x1 y1 dx sx dy sy fuel x0 y0 err.

(** The pixel of a loop state. *)
Definition pixel (s : Z * Z * Z) : Z * Z := fst s.

(** The returned [vector<float>] holds the samples as consecutive [x, y]
    pairs. *)
Fixpoint samples (v : list Q) : list (Q * Q) :=
  match v with
  | a :: b :: rest => (a, b) :: samples rest
  | _ => []
  end.

(** The two floats pushed for a loop state. *)
Definition emit (width height : Z) (s : Z * Z * Z) : list Q :=
  let '(x0, y0, _) := s in
  [((2 * (of_int x0 + (1#2))) / of_int width - 1)%Q;
   ((2 * (of_int y0 + (1#2))) / of_int height - 1)%Q].

(** The range of [int]. *)
Definition in_int (z : Z) : Prop := - 2 ^ 31 <= z <= 2 ^ 31 - 1.

Section Invariant.

(** The start pixel, [a = dx], [b = -dy] and the two step directions. *)
Variables (x0 y0 a b sx sy : Z).

(** The loop invariant: after [i] steps in x and [j] steps in y the error
    term is [a * (j + 1) - b * (i + 1)]; along the major axis every
    iteration steps. *)
Definition invariant (i j : Z) (s : Z * Z * Z) : Prop :=
  let '(x, y, err) := s in
  x = x0 + sx * i /\ y = y0 + sy * j /\ 0 <= i <= a /\ 0 <= j <= b /\
  err = a * (j + 1) - b * (i + 1) /\
  - (3 * b) <= 2 * err <= 3 * a /\
  (b <= a -> - b <= 2 * err) /\ (a < b -> 2 * err <= a).

(** Iterations left before the one that breaks. *)
Definition remaining (i j : Z) : Z := if b <=? a then a - i else b - j.

(** Lines 55-57 as a function on loop states, in unbounded integers. *)
Definition next (s : Z * Z * Z) : Z * Z * Z :=
  let '(x, y, err) := s in
  let e2 := 2 * err in
  let '(err, x) := if e2 >=? - b then (err + - b, x + sx) else (err, x) in
  let '(err, y) := if e2 <=? a then (err + a, y + sy) else (err, y) in
  (x, y, err).

End Invariant.

End Bresenham.

(** ** bresenhamLine in unbounded integers

    The loop states of [bresenhamLine] when no operation is reduced by
    [wrap].  The proofs reason on this run and transfer the result to
    [Bresenham.trace] for the inputs on which no operation overflows. *)

Module Unbounded.

Import Bresenham.
Open Scope Z_scope.

(** [a] is [dx] and [b] is [-dy]. *)
Fixpoint states (x1 y1 a b sx sy : Z) (fuel : nat) (x0 y0 err : Z)
  : option (list (Z * Z * Z)) :=
  match fuel with
  | O => None
  | S fuel' =>
      if (x0 =? x1) && (y0 =? y1) then Some [(x0, y0, err)]
      else
        let '(x0', y0', err') := next a b sx sy (x0, y0, err) in
        option_map (cons (x0, y0, err)) (states x1 y1 a b sx sy fuel' x0' y0' err')
  end.

Definition trace (fuel : nat) (x0 y0 x1 y1 : Z) : option (list (Z * Z * Z)) :=
  let a := Z.abs (x1 - x0) in
  let b := Z.abs (y1 - y0) in
  let sx := if x0 <? x1 then 1 else -1 in
  let sy := if y0 <? y1 then 1 else -1 in
  states x1 y1 a b sx sy fuel x0 y0 (a + - b).

End Unbounded.

(** ** xiaolinWuLine (lines 64-195) *)

Module Wu.

Open Scope Q_scope.

(** The lambdas [fpart] and [rfpart] of lines 72 and 77. *)
Definition fpart (x : Q) : Q := x - floorf x.
Definition rfpart (x : Q) : Q := 1 - fpart x.

(** Lines 84-92: the two conditional swaps. *)
Definition orient (steep : bool) (x0 y0 x1 y1 : Q) : Q * Q * Q * Q :=
  let '(X0, Y0, X1, Y1) := (x0, y0, x1, y1) in
  let '(X0, Y0, X1, Y1) :=
    if steep then (Y0, X0, Y1, X1) else (X0, Y0, X1, Y1) in
  if gtb X0 X1 then (X1, Y1, X0, Y0) else (X0, Y0, X1, Y1).

Section Body.

Variables (width height : Z) (r g b : Q).

(** The lambda [pushVertex] of line 111: the vertex it appends. *)
Definition pushVertex (ndcX ndcY alpha : Q) : Vertex.t :=
  Vertex.make ndcX ndcY r g b alpha.

(** Lines 115-132 and, with [xpxl2], [ypxl2] and the second [yend] and
    [xgap], lines 143-160: the two vertices of one endpoint. *)
Definition endpoint (steep : bool) (xpxl ypxl yend xgap : Q) : list Vertex.t :=
  if steep then
    let ndcX1 := (2 * (ypxl + (1#2))) / of_int width - 1 in
    let ndcY1 := (2 * (xpxl + (1#2))) / of_int height - 1 in
    let ndcX2 := (2 * (ypxl + 1 + (1#2))) / of_int width - 1 in
    let ndcY2 := (2 * (xpxl + (1#2))) / of_int height - 1 in
    [pushVertex ndcX1 ndcY1 (rfpart yend * xgap);
     pushVertex ndcX2 ndcY2 (fpart yend * xgap)]
  else
    let ndcX1 := (2 * (xpxl + (1#2))) / of_int width - 1 in
    let ndcY1 := (2 * (ypxl + (1#2))) / of_int height - 1 in
    let ndcX2 := (2 * (xpxl + (1#2))) / of_int width - 1 in
    let ndcY2 := (2 * (ypxl + 1 + (1#2))) / of_int height - 1 in
    [pushVertex ndcX1 ndcY1 (rfpart yend * xgap);
     pushVertex ndcX2 ndcY2 (fpart yend * xgap)].

(** Lines 166-177: the [for] loop of the steep branch, [n] iterations left,
    [x] the loop counter.  [x] stays below [int(xpxl2)], so [++x] does not
    overflow.  [intery += gradient] is the exact sum; in binary32 every
    addition rounds, so the accumulated value can differ from it. *)
Fixpoint sweep_steep (gradient : Q) (n : nat) (x : Z) (intery : Q)
  : list Vertex.t :=
  match n with
  | O => []
  | S n' =>
      let y := intery in
      let ndcX1 := (2 * (floorf y + (1#2))) / of_int width - 1 in
      let ndcY1 := (2 * (of_int x + (1#2))) / of_int height - 1 in
      let ndcX2 := (2 * (floorf y + 1 + (1#2))) / of_int width - 1 in
      let ndcY2 := (2 * (of_int x + (1#2))) / of_int height - 1 in
      pushVertex ndcX1 ndcY1 (rfpart y)
        :: pushVertex ndcX2 ndcY2 (fpart y)
        :: sweep_steep gradient n' (x + 1)%Z (intery + gradient)
  end.

(** Lines 180-191: the [for] loop of the other branch. *)
Fixpoint sweep_flat (gradient : Q) (n : nat) (x : Z) (intery : Q)
  : list Vertex.t :=
  match n with
  | O => []
  | S n' =>
      let y := intery in
      let ndcX1 := (2 * (of_int x + (1#2))) / of_int width - 1 in
      let ndcY1 := (2 * (floorf y + (1#2))) / of_int height - 1 in
      let ndcX2 := (2 * (of_int x + (1#2))) / of_int width - 1 in
      let ndcY2 := (2 * (floorf y + 1 + (1#2))) / of_int height - 1 in
      pushVertex ndcX1 ndcY1 (rfpart y)
        :: pushVertex ndcX2 ndcY2 (fpart y)
        :: sweep_flat gradient n' (x + 1)%Z (intery + gradient)
  end.

(** Lines 97-192, on the working endpoints.  The loop
    [for (int x = int(xpxl1) + 1; x < int(xpxl2); ++x)] runs
    [int(xpxl2) - (int(xpxl1) + 1)] times, or not at all.  [int(xpxl1) + 1]
    does not overflow: no float has the integral value [2^31 - 1]. *)
Definition rasterize (steep : bool) (X0 Y0 X1 Y1 : Q) : list Vertex.t :=
  let dx := X1 - X0 in
  let dy := Y1 - Y0 in
  let gradient := if eqb dx 0 then 1 else dy / dx in
  let xend := floorf X0 in
  let yend := Y0 + gradient * (xend - X0) in
  let xgap := 1 - (X0 - xend) in
  let xpxl1 := xend in
  let ypxl1 := floorf yend in
  let first := endpoint steep xpxl1 ypxl1 yend xgap in
  let intery := yend + gradient in
  let xend := ceilf X1 in
  let yend := Y1 + gradient * (xend - X1) in
  let xgap := 1 - (X1 - xend) in
  let xpxl2 := xend in
  let ypxl2 := floorf yend in
  let second := endpoint steep xpxl2 ypxl2 yend xgap in
  let x := (to_int xpxl1 + 1)%Z in
  let n := Z.to_nat (to_int xpxl2 - x) in
  first ++ second
    ++ (if steep then sweep_steep gradient n x intery
        else sweep_flat gradient n x intery).

End Body.

Definition xiaolinWuLine (x0 y0 x1 y1 : Q) (width height : Z) (r g b : Q)
  : list Vertex.t :=
  let steep := gtb (Qabs (y1 - y0)) (Qabs (x1 - x0)) in
  let '(X0, Y0, X1, Y1) := orient steep x0 y0 x1 y1 in
  rasterize width height r g b steep X0 Y0 X1 Y1.

(** *** Names for the quantities of lines 97-141 *)

Definition is_steep (x0 y0 x1 y1 : Q) : bool :=
  gtb (Qabs (y1 - y0)) (Qabs (x1 - x0)).

Definition gradient (X0 Y0 X1 Y1 : Q) : Q :=
  if eqb (X1 - X0) 0 then 1 else (Y1 - Y0) / (X1 - X0).

(** The secondary-axis intersection and the gap of the first endpoint. *)
Definition yend1 (X0 Y0 X1 Y1 : Q) : Q :=
  Y0 + gradient X0 Y0 X1 Y1 * (floorf X0 - X0).
Definition xgap1 (X0 : Q) : Q := 1 - (X0 - floorf X0).

(** The same for the second endpoint.  The gap of line 139 is at least 1;
    in exact arithmetic it is below 2, in binary32 the subtraction
    [X1 - xend] can round to [-1] and the gap is then 2. *)
Definition yend2 (X0 Y0 X1 Y1 : Q) : Q :=
  Y1 + gradient X0 Y0 X1 Y1 * (ceilf X1 - X1).
Definition xgap2 (X1 : Q) : Q := 1 - (X1 - ceilf X1).

(** The position of a vertex, and the position at which the pixel with
    primary index [P] and secondary index [S] is placed: lines 116-117 in
    the steep case, lines 125-126 otherwise. *)
Definition position (v : Vertex.t) : Q * Q := (Vertex.x v, Vertex.y v).
Definition place (steep : bool) (width height : Z) (P S : Q) : Q * Q :=
  if steep
  then ((2 * (S + (1#2))) / of_int width - 1, (2 * (P + (1#2))) / of_int height - 1)
  else ((2 * (P + (1#2))) / of_int width - 1, (2 * (S + (1#2))) / of_int height - 1).

(** The vertices come in pairs: the two [pushVertex] calls of one column. *)
Fixpoint pairs (v : list Vertex.t) : list (Vertex.t * Vertex.t) :=
  match v with
  | a :: b :: rest => (a, b) :: pairs rest
  | _ => []
  end.

(** The coverage sum of a pair. *)
Definition coverage_sum (p : Vertex.t * Vertex.t) : Q :=
  Vertex.alpha (fst p) + Vertex.alpha (snd p).

(** Two vertices agree up to the equality of floats. *)
Definition veq (u v : Vertex.t) : Prop :=
  Vertex.x u == Vertex.x v /\ Vertex.y u == Vertex.y v /\
  Vertex.r u == Vertex.r v /\ Vertex.g u == Vertex.g v /\
  Vertex.b u == Vertex.b v /\ Vertex.alpha u == Vertex.alpha v.

End Wu.

(** ** The coordinate normalizer, as the specification words it

    The source has no such function: it repeats the expression
    [(2.0f * (c + 0.5f)) / d - 1.0f] at every use. *)

Definition normalize (c : Q) (d : Z) : Q := (2 * (c + (1#2))) / inject_Z d - 1.

(** ** Consecutive elements of an output sequence *)

(** [linked R l]: every element of [l] is related by [R] to the next one. *)
Fixpoint linked {A : Type} (R : A -> A -> Prop) (l : list A) : Prop :=
  match l with
  | a :: (b :: _) as rest => R a b /\ linked R rest
  | _ => True
  end.

(** ** The path of bresenhamLine *)

Module Path.

Import Bresenham.
Open Scope Z_scope.

(** The facts one iteration keeps, in terms of the start pixel. *)
Definition on_path (x0 y0 x1 y1 : Z) (s : Z * Z * Z) : Prop :=
  let a := Z.abs (x1 - x0) in
  let b := Z.abs (y1 - y0) in
  let sx := if x0 <? x1 then 1 else -1 in
  let sy := if y0 <? y1 then 1 else -1 in
  exists i j,
    invariant x0 y0 a b sx sy i j s
    /\ 2 * Z.abs (a * j - b * i) <= Z.max a b.

(** What one iteration does to the pixel. *)
Definition moves (x0 y0 x1 y1 : Z) (s t : Z * Z * Z) : Prop :=
  let a := Z.abs (x1 - x0) in
  let b := Z.abs (y1 - y0) in
  let sx := if x0 <? x1 then 1 else -1 in
  let sy := if y0 <? y1 then 1 else -1 in
  let '(x, y) := pixel s in
  let '(x', y') := pixel t in
  (x' = x \/ x' = x + sx) /\ (y' = y \/ y' = y + sy)
  /\ (x' <> x \/ y' <> y)
  /\ (b <= a -> x' = x + sx) /\ (a < b -> y' = y + sy).

End Path.

(** ** processInput (lines 505-521) *)

Module Input.

Open Scope Z_scope.

(** The key states of [GLFW/glfw3.h]; the header is not part of the
    repository. *)
Definition GLFW_RELEASE : Z := 0.
Definition GLFW_PRESS : Z := 1.

(** What [processInput] reads and writes: the global [CURVE], its static
    local [cWasPressed], the close flag of the window, and the values it
    prints after "CURVE switched to ". *)
Record state : Type := mkState {
  CURVE : Z;
  cWasPressed : bool;
  shouldClose : bool;
  printed : list Z
}.

(** [int CURVE = 0], [static bool cWasPressed = false], a window that is
    open. *)
Definition initial : state := mkState 0 false false [].

(** One call.  [escape] and [cState] are what the two calls of [glfwGetKey]
    return; [%] on [int] is the truncated remainder. *)
Definition processInput (escape cState : Z) (s : state) : state :=
  let s :=
    if escape =? GLFW_PRESS
    then mkState (CURVE s) (cWasPressed s) true (printed s)
    else s in
  let s :=
    if (cState =? GLFW_PRESS) && negb (cWasPressed s)
    then
      let curve := Z.rem (CURVE s + 1) 2 in
      mkState curve true (shouldClose s) (printed s ++ [curve])
    else s in
  if cState =? GLFW_RELEASE
  then mkState (CURVE s) false (shouldClose s) (printed s)
  else s.

(** A sequence of calls, one per frame, each with its two key states. *)
Definition calls (keys : list (Z * Z)) (s : state) : state :=
  fold_left (fun s k => processInput (fst k) (snd k) s) keys s.

(** The calls that see the C key pressed while [cWasPressed] is false:
    the key went down since the call before. *)
Fixpoint presses (was : bool) (cStates : list Z) : nat :=
  match cStates with
  | [] => O
  | c :: rest =>
      if c =? GLFW_PRESS
      then (if was then O else 1%nat) + presses true rest
      else if c =? GLFW_RELEASE then presses false rest
      else presses was rest
  end.

End Input.

(** ** The sine wave of the render loop (lines 352-357 and 368-393) *)

Module SineWave.

Open Scope Q_scope.

(** [const unsigned int SCR_WIDTH = 1280, SCR_HEIGHT = 720]. *)
Definition SCR_WIDTH : Z := 1280.
Definition SCR_HEIGHT : Z := 720.

Definition x_start : Z := 50.
Definition x_end : Z := (SCR_WIDTH - 50)%Z.
Definition amplitude : Q := 200.
Definition frequency : Q := 1 # 100.

Section Frame.

(** The library function [sin], and the time of the frame. *)
Variable sin : Q -> Q.
Variable currentFrame : Q.

(** The body of the loop for one [i]: the two floats pushed to
    [verticesBresenham] and the two vertices pushed to [verticesWu]. *)
Definition column (i : Z) : list Q * list Vertex.t :=
  let phase := currentFrame in
  let x := of_int (x_start + i) in
  let y := of_int (SCR_HEIGHT / 2) + amplitude * sin (frequency * x + phase) in
  let ndcX := (2 * (x + (1#2))) / of_int SCR_WIDTH - 1 in
  let ndcY := (2 * (y + (1#2))) / of_int SCR_HEIGHT - 1 in
  let y_floor := floorf y in
  let frac := y - y_floor in
  let ndcXw := (2 * (x + (1#2))) / of_int SCR_WIDTH - 1 in
  let ndcY1 := (2 * (y_floor + (1#2))) / of_int SCR_HEIGHT - 1 in
  let ndcY2 := (2 * (y_floor + 1 + (1#2))) / of_int SCR_HEIGHT - 1 in
  ([ndcX; ndcY],
   [Vertex.make ndcXw ndcY1 1 0 1 (1 - frac);
    Vertex.make ndcXw ndcY2 1 0 1 frac]).

(** [for (int i = ...; i < num_points; ++i)], [n] iterations left. *)
Fixpoint columns (n : nat) (i : Z) : list Q * list Vertex.t :=
  match n with
  | O => ([], [])
  | S n' =>
      let (b, w) := column i in
      let (bs, ws) := columns n' (i + 1)%Z in
      (b ++ bs, w ++ ws)
  end.

(** The branch [CURVE == 0]: [verticesBresenham] and [verticesWu]. *)
Definition sineWave : list Q * list Vertex.t :=
  let num_points := (x_end - x_start + 1)%Z in
  columns (Z.to_nat num_points) 0%Z.

End Frame.

(** A position inside the square the window shows. *)
Definition in_view (x y : Q) : Prop := -1 < x < 1 /\ -1 < y < 1.

End SineWave.

(** * Arithmetic on [int] *)

Module Int32Proofs.
Open Scope Z_scope.

Lemma wrap_id z : - 2 ^ 31 <= z <= 2 ^ 31 - 1 -> wrap z = z.
Proof.
  unfold wrap. change (2 ^ 31) with 2147483648.
  change (2 ^ 32) with 4294967296. intros H.
  rewrite Z.mod_small; lia.
Qed.

Lemma wrap_add_l a b : wrap (wrap a + b) = wrap (a + b).
Proof.
  unfold wrap.
  replace ((a + 2 ^ 31) mod 2 ^ 32 - 2 ^ 31 + b + 2 ^ 31)
    with ((a + 2 ^ 31) mod 2 ^ 32 + b) by ring.
  rewrite Z.add_mod_idemp_l by (change (2 ^ 32) with 4294967296; lia).
  f_equal. f_equal. ring.
Qed.

Lemma wrap_double a : wrap (-2 * wrap a) = wrap (-2 * a).
Proof.
  unfold wrap. change (2 ^ 31) with 2147483648.
  change (2 ^ 32) with 4294967296.
  Z.div_mod_to_equations. lia.
Qed.

Lemma wrap_parity a : wrap a mod 2 = a mod 2.
Proof.
  unfold wrap. change (2 ^ 31) with 2147483648.
  change (2 ^ 32) with 4294967296.
  Z.div_mod_to_equations. lia.
Qed.

End Int32Proofs.

(** * bresenhamLine in unbounded integers *)

Module UnboundedProofs.
Import Bresenham.
Open Scope Z_scope.

Lemma states_next x1 y1 a b sx sy fuel x y err :
  Unbounded.states x1 y1 a b sx sy (S fuel) x y err
  = if (x =? x1) && (y =? y1) then Some [(x, y, err)]
    else let '(x', y', err') := next a b sx sy (x, y, err) in
         option_map (cons (x, y, err))
           (Unbounded.states x1 y1 a b sx sy fuel x' y' err').
Proof. reflexivity. Qed.

Section Run.

Variables (x0 y0 x1 y1 a b sx sy : Z).
Hypothesis a_nonneg : 0 <= a.
Hypothesis b_nonneg : 0 <= b.
Hypothesis sx_unit : sx = 1 \/ sx = -1.
Hypothesis sy_unit : sy = 1 \/ sy = -1.
Hypothesis x1_eq : x1 = x0 + sx * a.
Hypothesis y1_eq : y1 = y0 + sy * b.

Local Abbreviation Inv := (invariant x0 y0 a b sx sy).
Local Abbreviation rem := (remaining a b).

Lemma invariant_init : Inv 0 0 (x0, y0, a + - b).
Proof using All. unfold invariant. repeat split; lia. Qed.

Lemma at_end i j x y err :
  Inv i j (x, y, err) -> (x = x1 /\ y = y1) <-> (i = a /\ j = b).
Proof using All.
  unfold invariant. intros (Hx & Hy & Hi & Hj & _). subst x y.
  rewrite x1_eq, y1_eq. split; intros [H1 H2].
  - split; [destruct sx_unit as [->| ->] | destruct sy_unit as [->| ->]]; lia.
  - subst; auto.
Qed.

Lemma remaining_zero i j s : Inv i j s -> rem i j = 0 -> i = a /\ j = b.
Proof using All.
  destruct s as [[x y] err]. unfold invariant, remaining.
  intros (_ & _ & Hi & Hj & He & _ & Hmaj & Hmin).
  destruct (Z.leb_spec b a) as [Hba|Hba]; intros H0; subst err; nia.
Qed.

Lemma step_invariant i j s :
  Inv i j s -> ~ (i = a /\ j = b) ->
  exists i' j', Inv i' j' (next a b sx sy s)
                /\ rem i' j' = rem i j - 1 /\ 0 <= rem i' j'.
Proof using All.
  destruct s as [[x y] err]. unfold invariant, next, remaining.
  intros (Hx & Hy & Hi & Hj & He & Hb & Hmaj & Hmin) Hne.
  destruct (Z.leb_spec b a) as [Hba|Hba].
  - specialize (Hmaj Hba). clear Hmin.
    assert (Hia : i < a) by (subst err; nia).
    destruct (Z.geb_spec (2 * err) (- b)) as [_|?]; [|lia].
    destruct (Z.leb_spec (2 * err) a) as [Hy'|Hy'].
    + assert (Hjb : j < b) by (subst err; nia).
      exists (i + 1), (j + 1). repeat split; try lia; subst; nia.
    + exists (i + 1), j. repeat split; try lia; subst; nia.
  - specialize (Hmin Hba). clear Hmaj.
    assert (Hjb : j < b) by (subst err; nia).
    destruct (Z.leb_spec (2 * err) a) as [_|?]; [|lia].
    destruct (Z.geb_spec (2 * err) (- b)) as [Hx'|Hx'].
    + assert (Hia : i < a) by (subst err; nia).
      exists (i + 1), (j + 1). repeat split; try lia; subst; nia.
    + exists i, (j + 1). repeat split; try lia; subst; nia.
Qed.

(** From a state that satisfies the invariant with [n] iterations left, the
    loop runs [n + 1] iterations: it returns with any larger fuel and with
    no smaller one; the last state, and no earlier one, is at [(x1, y1)]. *)
Lemma run n :
  forall i j s, Inv i j s -> rem i j = Z.of_nat n ->
  exists front e,
    let l := front ++ [(x1, y1, e)] in
    (forall fuel, (n < fuel)%nat ->
       Unbounded.states x1 y1 a b sx sy fuel (fst (fst s)) (snd (fst s)) (snd s)
       = Some l)
    /\ (forall fuel, (fuel <= n)%nat ->
       Unbounded.states x1 y1 a b sx sy fuel (fst (fst s)) (snd (fst s)) (snd s)
       = None)
    /\ length l = S n
    /\ hd_error l = Some s
    /\ Forall (fun t => pixel t <> (x1, y1)) front
    /\ Forall (fun t => exists i j, Inv i j t) l.
Proof using All.
  induction n as [|n IH]; intros i j [[x y] err] HI Hrem; cbn [fst snd].
  - destruct (remaining_zero _ _ _ HI Hrem) as [-> ->].
    destruct (proj2 (at_end _ _ _ _ _ HI) (conj eq_refl eq_refl)) as [-> ->].
    exists [], err. cbn zeta. repeat split.
    + intros [|fuel] Hf; [lia|]. rewrite states_next.
      now rewrite !Z.eqb_refl.
    + intros [|fuel] Hf; [reflexivity|lia].
    + constructor.
    + repeat constructor. now exists a, b.
  - assert (Hne : ~ (i = a /\ j = b)).
    { intros [-> ->]. unfold remaining in Hrem.
      destruct (b <=? a); lia. }
    assert (Hpix : ~ (x = x1 /\ y = y1))
      by (intros H; apply Hne, (at_end _ _ _ _ _ HI), H).
    assert (Hcond : (x =? x1) && (y =? y1) = false).
    { apply andb_false_iff.
      destruct (Z.eqb_spec x x1), (Z.eqb_spec y y1); auto. tauto. }
    destruct (step_invariant _ _ _ HI Hne) as (i' & j' & HI' & Hrem' & _).
    destruct (next a b sx sy (x, y, err)) as [[x' y'] err'] eqn:Hnext.
    destruct (IH i' j' _ HI' ltac:(lia)) as (front & e & Hrun & Hnone & Hlen & Hhd & Hfr & Hall).
    cbn [fst snd] in Hrun, Hnone. cbn zeta in *.
    exists ((x, y, err) :: front), e. repeat split.
    + intros [|fuel] Hf; [lia|]. rewrite states_next, Hcond, Hnext.
      rewrite Hrun by lia. reflexivity.
    + intros [|fuel] Hf; [reflexivity|]. rewrite states_next, Hcond, Hnext.
      rewrite Hnone by lia. reflexivity.
    + simpl. now rewrite Hlen.
    + constructor; [|assumption]. unfold pixel; simpl. intros [= -> ->]. tauto.
    + simpl. constructor; [now exists i, j | assumption].
Qed.

End Run.

(** The facts about [dx], [-dy], [sx] and [sy] the section assumes. *)
Lemma setup_facts x0 y0 x1 y1 :
  let a := Z.abs (x1 - x0) in
  let b := Z.abs (y1 - y0) in
  let sx := if x0 <? x1 then 1 else -1 in
  let sy := if y0 <? y1 then 1 else -1 in
  0 <= a /\ 0 <= b /\ (sx = 1 \/ sx = -1) /\ (sy = 1 \/ sy = -1)
  /\ x1 = x0 + sx * a /\ y1 = y0 + sy * b.
Proof.
  intros a b sx sy.
  split; [apply Z.abs_nonneg|]. split; [apply Z.abs_nonneg|].
  split; [unfold sx; destruct (x0 <? x1); auto|].
  split; [unfold sy; destruct (y0 <? y1); auto|].
  split; [unfold sx, a; destruct (Z.ltb_spec x0 x1); lia|].
  unfold sy, b; destruct (Z.ltb_spec y0 y1); lia.
Qed.

(** The unbounded run: its length, its two ends, and the invariant along
    the way. *)
Lemma trace_run x0 y0 x1 y1 :
  let a := Z.abs (x1 - x0) in
  let b := Z.abs (y1 - y0) in
  let sx := if x0 <? x1 then 1 else -1 in
  let sy := if y0 <? y1 then 1 else -1 in
  let n := Z.to_nat (Z.max a b) in
  exists front e,
    let l := front ++ [(x1, y1, e)] in
    (forall fuel, (n < fuel)%nat -> Unbounded.trace fuel x0 y0 x1 y1 = Some l)
    /\ (forall fuel, (fuel <= n)%nat -> Unbounded.trace fuel x0 y0 x1 y1 = None)
    /\ length l = S n
    /\ hd_error l = Some (x0, y0, a + - b)
    /\ Forall (fun t => pixel t <> (x1, y1)) front
    /\ Forall (fun t => exists i j, invariant x0 y0 a b sx sy i j t) l.
Proof.
  intros a b sx sy n.
  destruct (setup_facts x0 y0 x1 y1) as (Ha & Hb & Hsx & Hsy & Hx1 & Hy1).
  fold a b sx sy in Ha, Hb, Hsx, Hsy, Hx1, Hy1.
  assert (Hrem : remaining a b 0 0 = Z.of_nat n).
  { unfold remaining, n. destruct (Z.leb_spec b a); lia. }
  destruct (run x0 y0 x1 y1 a b sx sy Ha Hb Hsx Hsy Hx1 Hy1 n 0 0 _
              (invariant_init x0 y0 x1 y1 a b sx sy Ha Hb Hsx Hsy Hx1 Hy1) Hrem)
    as (front & e & H).
  exists front, e. exact H.
Qed.

End UnboundedProofs.

(** * Properties of bresenhamLine *)

Module BresenhamProofs.
Import Bresenham Int32Proofs UnboundedProofs.
Open Scope Z_scope.

Lemma samples_emit width height (l : list (Z * Z * Z)) :
  samples (flat_map (emit width height) l)
  = map (fun s => (normalize (inject_Z (fst (pixel s))) width,
                   normalize (inject_Z (snd (pixel s))) height)) l.
Proof.
  induction l as [|[[x y] e] l IH]; simpl; [reflexivity|].
  now rewrite IH.
Qed.

(** The source loop pushes exactly the floats of the recorded states. *)
Lemma loop_states x1 y1 width height dx sx dy sy fuel :
  forall x0 y0 err,
    loop x1 y1 width height dx sx dy sy fuel x0 y0 err
    = option_map (flat_map (emit width height))
        (states x1 y1 dx sx dy sy fuel x0 y0 err).
Proof.
  induction fuel as [|fuel IH]; intros x0 y0 err; [reflexivity|].
  cbn [loop states]. cbv zeta.
  destruct ((x0 =? x1) && (y0 =? y1)); [reflexivity|].
  destruct (wrap (2 * err) >=? dy), (wrap (2 * err) <=? dx); cbn iota beta zeta;
    rewrite IH;
    match goal with |- context [states _ _ _ _ _ _ _ ?x ?y ?e] =>
      destruct (states x1 y1 dx sx dy sy fuel x y e) end; reflexivity.
Qed.

Lemma bresenhamLine_trace fuel x0 y0 x1 y1 width height :
  bresenhamLine fuel x0 y0 x1 y1 width height
  = option_map (flat_map (emit width height)) (trace fuel x0 y0 x1 y1).
Proof. unfold bresenhamLine, trace. apply loop_states. Qed.

(** ** Inputs on which nothing overflows *)

(** One iteration of the source loop is [next] when the six values it
    computes are [int]s. *)
Lemma states_step x1 y1 a b sx sy fuel x y err :
  in_int (2 * err) -> in_int (err + - b) -> in_int (err + a) ->
  in_int (err + - b + a) -> in_int (x + sx) -> in_int (y + sy) ->
  states x1 y1 a sx (- b) sy (S fuel) x y err
  = if (x =? x1) && (y =? y1) then Some [(x, y, err)]
    else let '(x', y', err') := next a b sx sy (x, y, err) in
         option_map (cons (x, y, err)) (states x1 y1 a sx (- b) sy fuel x' y' err').
Proof.
  intros H2 Hb Ha Hba Hx Hy. cbn [states]. cbv zeta. unfold next.
  rewrite (wrap_id _ H2), (wrap_id _ Hb), (wrap_id _ Hx), (wrap_id _ Hy).
  destruct ((x =? x1) && (y =? y1)); [reflexivity|].
  destruct (2 * err >=? - b), (2 * err <=? a); cbn iota beta;
    rewrite ?(wrap_id _ Hba), ?(wrap_id _ Ha); reflexivity.
Qed.

(** With endpoints within [-2^28, 2^28], every value the loop computes in a
    state that satisfies the invariant is an [int]. *)
Lemma invariant_in_int x0 y0 x1 y1 i j x y err :
  Z.abs x0 <= 2 ^ 28 -> Z.abs y0 <= 2 ^ 28 ->
  Z.abs x1 <= 2 ^ 28 -> Z.abs y1 <= 2 ^ 28 ->
  let a := Z.abs (x1 - x0) in
  let b := Z.abs (y1 - y0) in
  let sx := if x0 <? x1 then 1 else -1 in
  let sy := if y0 <? y1 then 1 else -1 in
  invariant x0 y0 a b sx sy i j (x, y, err) ->
  in_int x /\ in_int y /\ in_int err /\ in_int (2 * err)
  /\ in_int (err + - b) /\ in_int (err + a) /\ in_int (err + - b + a)
  /\ in_int (x + sx) /\ in_int (y + sy).
Proof.
  intros Hx0 Hy0 Hx1 Hy1 a b sx sy (Hx & Hy & Hi & Hj & _ & Hb & _).
  unfold in_int. change (2 ^ 28) with 268435456 in *.
  change (2 ^ 31) with 2147483648.
  assert (Hsx : sx = 1 \/ sx = -1) by (unfold sx; destruct (x0 <? x1); auto).
  assert (Hsy : sy = 1 \/ sy = -1) by (unfold sy; destruct (y0 <? y1); auto).
  assert (Ha : 0 <= a <= 536870912) by (unfold a; lia).
  assert (Hb' : 0 <= b <= 536870912) by (unfold b; lia).
  assert (Hxx : Z.abs x <= 268435456).
  { subst x. unfold a in *.
    destruct Hsx as [Hs|Hs]; rewrite Hs in *; unfold sx in Hs;
      destruct (Z.ltb_spec x0 x1); try discriminate; lia. }
  assert (Hyy : Z.abs y <= 268435456).
  { subst y. unfold b in *.
    destruct Hsy as [Hs|Hs]; rewrite Hs in *; unfold sy in Hs;
      destruct (Z.ltb_spec y0 y1); try discriminate; lia. }
  repeat split; try lia; destruct Hsx as [->| ->]; destruct Hsy as [->| ->]; lia.
Qed.

(** On such endpoints the source loop and the unbounded loop agree. *)
Lemma states_unbounded x0 y0 x1 y1 :
  Z.abs x0 <= 2 ^ 28 -> Z.abs y0 <= 2 ^ 28 ->
  Z.abs x1 <= 2 ^ 28 -> Z.abs y1 <= 2 ^ 28 ->
  let a := Z.abs (x1 - x0) in
  let b := Z.abs (y1 - y0) in
  let sx := if x0 <? x1 then 1 else -1 in
  let sy := if y0 <? y1 then 1 else -1 in
  forall fuel i j x y err,
    invariant x0 y0 a b sx sy i j (x, y, err) ->
    states x1 y1 a sx (- b) sy fuel x y err
    = Unbounded.states x1 y1 a b sx sy fuel x y err.
Proof.
  intros Hx0 Hy0 Hx1 Hy1 a b sx sy.
  destruct (setup_facts x0 y0 x1 y1) as (Ha & Hb & Hsx & Hsy & Hx1e & Hy1e).
  fold a b sx sy in Ha, Hb, Hsx, Hsy, Hx1e, Hy1e.
  induction fuel as [|fuel IH]; intros i j x y err HI; [reflexivity|].
  destruct (invariant_in_int x0 y0 x1 y1 i j x y err Hx0 Hy0 Hx1 Hy1 HI)
    as (_ & _ & _ & H2 & Hmb & Hpa & Hba & Hxs & Hys).
  fold a b sx sy in Hmb, Hpa, Hba, Hxs, Hys.
  rewrite states_step by assumption. rewrite states_next.
  destruct ((x =? x1) && (y =? y1)) eqn:Hc; [reflexivity|].
  assert (Hne : ~ (i = a /\ j = b)).
  { intros H.
    apply (at_end x0 y0 x1 y1 a b sx sy Ha Hb Hsx Hsy Hx1e Hy1e _ _ _ _ _ HI) in H.
    destruct H as [-> ->]. rewrite !Z.eqb_refl in Hc. discriminate. }
  destruct (step_invariant x0 y0 x1 y1 a b sx sy Ha Hb Hsx Hsy Hx1e Hy1e _ _ _ HI Hne)
    as (i' & j' & HI' & _).
  destruct (next a b sx sy (x, y, err)) as [[x' y'] err'].
  now rewrite (IH i' j' _ _ _ HI').
Qed.

Lemma trace_unbounded fuel x0 y0 x1 y1 :
  Z.abs x0 <= 2 ^ 28 -> Z.abs y0 <= 2 ^ 28 ->
  Z.abs x1 <= 2 ^ 28 -> Z.abs y1 <= 2 ^ 28 ->
  trace fuel x0 y0 x1 y1 = Unbounded.trace fuel x0 y0 x1 y1.
Proof.
  intros Hx0 Hy0 Hx1 Hy1. unfold trace, Unbounded.trace. cbv zeta.
  destruct (setup_facts x0 y0 x1 y1) as (Ha & Hb & Hsx & Hsy & Hx1e & Hy1e).
  assert (R : forall z, Z.abs z <= 2 ^ 30 -> wrap z = z).
  { intros z Hz. apply wrap_id. unfold in_int.
    change (2 ^ 30) with 1073741824 in Hz. change (2 ^ 31) with 2147483648. lia. }
  change (2 ^ 28) with 268435456 in *.
  rewrite !(R (x1 - x0)), !(R (y1 - y0)), !(R (Z.abs (x1 - x0))),
    !(R (Z.abs (y1 - y0))), !(R (- Z.abs (y1 - y0))),
    !(R (Z.abs (x1 - x0) + - Z.abs (y1 - y0)))
    by (change (2 ^ 30) with 1073741824; lia).
  apply (states_unbounded x0 y0 x1 y1 Hx0 Hy0 Hx1 Hy1 fuel 0 0).
  exact (invariant_init x0 y0 x1 y1 _ _ _ _ Ha Hb Hsx Hsy Hx1e Hy1e).
Qed.

(** The run of [trace] on such endpoints: its length, its two ends, and the
    invariant along the way. *)
Lemma trace_in_range x0 y0 x1 y1 :
  Z.abs x0 <= 2 ^ 28 -> Z.abs y0 <= 2 ^ 28 ->
  Z.abs x1 <= 2 ^ 28 -> Z.abs y1 <= 2 ^ 28 ->
  let a := Z.abs (x1 - x0) in
  let b := Z.abs (y1 - y0) in
  let sx := if x0 <? x1 then 1 else -1 in
  let sy := if y0 <? y1 then 1 else -1 in
  let n := Z.to_nat (Z.max a b) in
  exists front e,
    let l := front ++ [(x1, y1, e)] in
    (forall fuel, (n < fuel)%nat -> trace fuel x0 y0 x1 y1 = Some l)
    /\ (forall fuel, (fuel <= n)%nat -> trace fuel x0 y0 x1 y1 = None)
    /\ length l = S n
    /\ hd_error l = Some (x0, y0, a + - b)
    /\ Forall (fun t => pixel t <> (x1, y1)) front
    /\ Forall (fun t => exists i j, invariant x0 y0 a b sx sy i j t) l.
Proof.
  intros Hx0 Hy0 Hx1 Hy1 a b sx sy n.
  destruct (trace_run x0 y0 x1 y1) as (front & e & Hrun & Hnone & H).
  exists front, e. cbn zeta in *.
  split; [|split; [|exact H]]; intros fuel Hf;
    rewrite trace_unbounded by assumption; auto.
Qed.

Lemma trace_pixels_result x0 y0 x1 y1 width height :
  Z.abs x0 <= 2 ^ 28 -> Z.abs y0 <= 2 ^ 28 ->
  Z.abs x1 <= 2 ^ 28 -> Z.abs y1 <= 2 ^ 28 ->
  exists front e,
    let l := front ++ [(x1, y1, e)] in
    let n := Z.to_nat (Z.max (Z.abs (x1 - x0)) (Z.abs (y1 - y0))) in
    (forall fuel, (n < fuel)%nat ->
       bresenhamLine fuel x0 y0 x1 y1 width height
       = Some (flat_map (emit width height) l))
    /\ (forall fuel, (fuel <= n)%nat ->
       bresenhamLine fuel x0 y0 x1 y1 width height = None)
    /\ length l = S n
    /\ (exists e0, hd_error l = Some (x0, y0, e0))
    /\ Forall (fun t => pixel t <> (x1, y1)) front.
Proof.
  intros Hx0 Hy0 Hx1 Hy1.
  destruct (trace_in_range x0 y0 x1 y1 Hx0 Hy0 Hx1 Hy1)
    as (front & e & Hrun & Hnone & Hlen & Hhd & Hfr & _).
  exists front, e. cbn zeta. repeat split.
  - intros fuel Hf. now rewrite bresenhamLine_trace, Hrun.
  - intros fuel Hf. now rewrite bresenhamLine_trace, Hnone.
  - exact Hlen.
  - eexists. exact Hhd.
  - exact Hfr.
Qed.

(** ** An input on which [2 * err] overflows *)

(** From [(0, 0)] to [(2^30, 0)] the first [2 * err] is [2^31].  From there
    on the states go round four shapes, [y] going down by one in every
    iteration and [x] up by one in every other; none of them is the end
    pixel, so the loop never reaches its [break]. *)
Lemma overflow_cycle fuel :
  forall x y err,
    (x mod 2 = 0 /\ y = wrap (-2 * x) /\ err = 2 ^ 30)
    \/ (x mod 2 = 0 /\ y = wrap (-2 * x - 1) /\ err = - 2 ^ 31)
    \/ (x mod 2 = 1 /\ y = wrap (-2 * x) /\ err = - 2 ^ 30)
    \/ (x mod 2 = 1 /\ y = wrap (-2 * x - 1) /\ err = 0) ->
    states (2 ^ 30) 0 (2 ^ 30) 1 0 (-1) fuel x y err = None.
Proof.
  induction fuel as [|fuel IH]; intros x y err H; [reflexivity|].
  cbn [states]. cbv zeta.
  assert (Hc : (x =? 2 ^ 30) && (y =? 0) = false).
  { apply andb_false_iff.
    destruct (Z.eqb_spec x (2 ^ 30)) as [->|]; [right|now left].
    destruct H as [(_ & -> & _)|[(_ & -> & _)|[(H & _)|(H & _)]]];
      try reflexivity; discriminate H. }
  rewrite Hc.
  destruct H as [(Hx & -> & ->)|[(Hx & -> & ->)|[(Hx & -> & ->)|(Hx & -> & ->)]]].
  - change (wrap (2 * 2 ^ 30) >=? 0) with false.
    change (wrap (2 * 2 ^ 30) <=? 2 ^ 30) with true. cbn iota beta.
    rewrite IH; [reflexivity|]. right; left.
    split; [exact Hx|]. split; [|reflexivity].
    rewrite wrap_add_l. f_equal.
  - change (wrap (2 * - 2 ^ 31) >=? 0) with true.
    change (wrap (2 * - 2 ^ 31) <=? 2 ^ 30) with true. cbn iota beta.
    rewrite IH; [reflexivity|]. right; right; left.
    split; [rewrite wrap_parity; Z.div_mod_to_equations; lia|].
    split; [|reflexivity].
    rewrite wrap_add_l, wrap_double. f_equal. ring.
  - change (wrap (2 * - 2 ^ 30) >=? 0) with false.
    change (wrap (2 * - 2 ^ 30) <=? 2 ^ 30) with true. cbn iota beta.
    rewrite IH; [reflexivity|]. right; right; right.
    split; [exact Hx|]. split; [|reflexivity].
    rewrite wrap_add_l. f_equal.
  - change (wrap (2 * 0) >=? 0) with true.
    change (wrap (2 * 0) <=? 2 ^ 30) with true. cbn iota beta.
    rewrite IH; [reflexivity|]. left.
    split; [rewrite wrap_parity; Z.div_mod_to_equations; lia|].
    split; [|reflexivity].
    rewrite wrap_add_l, wrap_double. f_equal. ring.
Qed.

Lemma overflow_diverges fuel : trace fuel 0 0 (2 ^ 30) 0 = None.
Proof.
  unfold trace. cbv zeta.
  change (wrap (Z.abs (wrap (2 ^ 30 - 0)))) with (2 ^ 30).
  change (wrap (- wrap (Z.abs (wrap (0 - 0))))) with 0.
  change (wrap (2 ^ 30 + 0)) with (2 ^ 30).
  change (if 0 <? 2 ^ 30 then 1 else -1) with 1.
  change (if 0 <? 0 then 1 else -1) with (-1).
  apply overflow_cycle. left. repeat split.
Qed.

(** ** The claims *)

(** C4, for endpoints within [-2^28, 2^28]: for positive [width] and
    [height], [bresenhamLine] returns a non-empty sequence of samples; the
    first one is the normalised first endpoint and the last one the
    normalised second endpoint. *)
Theorem bresenham_endpoints x0 y0 x1 y1 width height :
  Z.abs x0 <= 2 ^ 28 -> Z.abs y0 <= 2 ^ 28 ->
  Z.abs x1 <= 2 ^ 28 -> Z.abs y1 <= 2 ^ 28 ->
  0 < width -> 0 < height ->
  exists v front back,
    (forall fuel,
        (Z.to_nat (Z.max (Z.abs (x1 - x0)) (Z.abs (y1 - y0))) < fuel)%nat ->
        bresenhamLine fuel x0 y0 x1 y1 width height = Some v)
    /\ samples v <> []
    /\ samples v
       = (normalize (inject_Z x0) width, normalize (inject_Z y0) height) :: back
    /\ samples v
       = front ++ [(normalize (inject_Z x1) width, normalize (inject_Z y1) height)].
Proof.
  intros Hx0 Hy0 Hx1 Hy1 _ _.
  destruct (trace_pixels_result x0 y0 x1 y1 width height Hx0 Hy0 Hx1 Hy1)
    as (front & e & Hrun & _ & _ & [e0 Hhd] & _).
  cbn zeta in *.
  set (f := fun s : Z * Z * Z =>
              (normalize (inject_Z (fst (pixel s))) width,
               normalize (inject_Z (snd (pixel s))) height)).
  destruct (front ++ [(x1, y1, e)]) as [|s0 rest] eqn:Hl; [discriminate|].
  injection Hhd as ->.
  exists (flat_map (emit width height) ((x0, y0, e0) :: rest)),
    (map f front), (map f rest).
  rewrite samples_emit. fold f. repeat split.
  - exact Hrun.
  - discriminate.
  - rewrite <- Hl, map_app. reflexivity.
Qed.

Lemma bresenham_endpoints_witness :
  exists v front back,
    (forall fuel,
        (Z.to_nat (Z.max (Z.abs (5 - 0)) (Z.abs (2 - 0))) < fuel)%nat ->
        bresenhamLine fuel 0 0 5 2 100 100 = Some v)
    /\ samples v <> []
    /\ samples v
       = (normalize (inject_Z 0) 100, normalize (inject_Z 0) 100) :: back
    /\ samples v
       = front ++ [(normalize (inject_Z 5) 100, normalize (inject_Z 2) 100)].
Proof.
  apply (bresenham_endpoints 0 0 5 2 100 100);
    first [reflexivity | vm_compute; discriminate].
Defined.

(** The range matters: from [(0, 0)] to [(2^30, 0)] the call returns no
    sequence at all, whatever the number of iterations. *)
Lemma bresenham_endpoints_counterexample :
  ~ exists fuel v, bresenhamLine fuel 0 0 (2 ^ 30) 0 100 100 = Some v.
Proof.
  intros (fuel & v & H).
  rewrite bresenhamLine_trace, overflow_diverges in H. discriminate.
Qed.

(** C5, for endpoints within [-2^28, 2^28]: [bresenhamLine] emits exactly
    [max(|x1-x0|, |y1-y0|) + 1] samples; for identical endpoints it returns
    the single normalised pixel. *)
Theorem bresenham_sample_count x0 y0 x1 y1 width height :
  Z.abs x0 <= 2 ^ 28 -> Z.abs y0 <= 2 ^ 28 ->
  Z.abs x1 <= 2 ^ 28 -> Z.abs y1 <= 2 ^ 28 ->
  (exists v,
      (forall fuel,
          (Z.to_nat (Z.max (Z.abs (x1 - x0)) (Z.abs (y1 - y0))) < fuel)%nat ->
          bresenhamLine fuel x0 y0 x1 y1 width height = Some v)
      /\ Z.of_nat (length (samples v))
         = Z.max (Z.abs (x1 - x0)) (Z.abs (y1 - y0)) + 1)
  /\ (forall fuel,
        bresenhamLine (S fuel) x0 y0 x0 y0 width height
        = Some [normalize (inject_Z x0) width; normalize (inject_Z y0) height]).
Proof.
  intros Hx0 Hy0 Hx1 Hy1. split.
  - destruct (trace_pixels_result x0 y0 x1 y1 width height Hx0 Hy0 Hx1 Hy1)
      as (front & e & Hrun & _ & Hlen & _).
    cbn zeta in *. eexists. split; [exact Hrun|].
    rewrite samples_emit, length_map, Hlen. lia.
  - intros fuel. unfold bresenhamLine. cbn [loop]. cbv zeta.
    now rewrite !Z.eqb_refl.
Qed.

Lemma bresenham_sample_count_witness :
  (exists v,
      (forall fuel,
          (Z.to_nat (Z.max (Z.abs (5 - 0)) (Z.abs (2 - 0))) < fuel)%nat ->
          bresenhamLine fuel 0 0 5 2 100 100 = Some v)
      /\ Z.of_nat (length (samples v))
         = Z.max (Z.abs (5 - 0)) (Z.abs (2 - 0)) + 1)
  /\ (forall fuel,
        bresenhamLine (S fuel) 0 0 0 0 100 100
        = Some [normalize (inject_Z 0) 100; normalize (inject_Z 0) 100]).
Proof.
  apply (bresenham_sample_count 0 0 5 2 100 100); vm_compute; discriminate.
Defined.

(** The range matters: from [(0, 0)] to [(2^30, 0)] no run returns
    [2^30 + 1] samples. *)
Lemma bresenham_sample_count_counterexample :
  ~ exists fuel v,
      bresenhamLine fuel 0 0 (2 ^ 30) 0 100 100 = Some v
      /\ Z.of_nat (length (samples v))
         = Z.max (Z.abs (2 ^ 30 - 0)) (Z.abs (0 - 0)) + 1.
Proof.
  intros (fuel & v & H & _).
  rewrite bresenhamLine_trace, overflow_diverges in H. discriminate.
Qed.

(** C6, for endpoints within [-2^28, 2^28]: the loop of [bresenhamLine]
    terminates: it breaks in the iteration that emits the pixel [(x1, y1)],
    which is the first iteration to emit that pixel; with less fuel than
    that the loop is still running. *)
Theorem bresenham_terminates_at_end x0 y0 x1 y1 width height :
  Z.abs x0 <= 2 ^ 28 -> Z.abs y0 <= 2 ^ 28 ->
  Z.abs x1 <= 2 ^ 28 -> Z.abs y1 <= 2 ^ 28 ->
  exists front e,
    let l := front ++ [(x1, y1, e)] in
    (forall fuel, (length l <= fuel)%nat ->
       trace fuel x0 y0 x1 y1 = Some l
       /\ bresenhamLine fuel x0 y0 x1 y1 width height
          = Some (flat_map (emit width height) l))
    /\ (forall fuel, (fuel < length l)%nat ->
       bresenhamLine fuel x0 y0 x1 y1 width height = None)
    /\ ~ In (x1, y1) (map pixel front).
Proof.
  intros Hx0 Hy0 Hx1 Hy1.
  destruct (trace_in_range x0 y0 x1 y1 Hx0 Hy0 Hx1 Hy1)
    as (front & e & Hrun & Hnone & Hlen & _ & Hfr & _).
  exists front, e. cbn zeta in *. rewrite Hlen. repeat split.
  - apply Hrun. lia.
  - rewrite bresenhamLine_trace, Hrun by lia. reflexivity.
  - intros fuel Hf. rewrite bresenhamLine_trace, Hnone by lia. reflexivity.
  - intros Hin. apply in_map_iff in Hin as (t & Ht & Hin).
    rewrite Forall_forall in Hfr. exact (Hfr t Hin Ht).
Qed.

Lemma bresenham_terminates_at_end_witness :
  exists front e,
    let l := front ++ [(5, 2, e)] in
    (forall fuel, (length l <= fuel)%nat ->
       trace fuel 0 0 5 2 = Some l
       /\ bresenhamLine fuel 0 0 5 2 100 100
          = Some (flat_map (emit 100 100) l))
    /\ (forall fuel, (fuel < length l)%nat ->
       bresenhamLine fuel 0 0 5 2 100 100 = None)
    /\ ~ In (5, 2) (map pixel front).
Proof.
  apply (bresenham_terminates_at_end 0 0 5 2 100 100); vm_compute; discriminate.
Defined.

(** The range matters: from [(0, 0)] to [(2^30, 0)] the loop does not
    terminate, no amount of fuel lets it reach the iteration that breaks. *)
Lemma bresenham_terminates_at_end_counterexample :
  ~ exists fuel l, trace fuel 0 0 (2 ^ 30) 0 = Some l.
Proof.
  intros (fuel & l & H). rewrite overflow_diverges in H. discriminate.
Qed.

(** With endpoints within [-2^28, 2^28] the loop returns and every integer
    the source computes stays in the range of [int]: no operation
    overflows. *)
Theorem bresenham_no_overflow x0 y0 x1 y1 :
  Z.abs x0 <= 2 ^ 28 -> Z.abs y0 <= 2 ^ 28 ->
  Z.abs x1 <= 2 ^ 28 -> Z.abs y1 <= 2 ^ 28 ->
  let dx := Z.abs (x1 - x0) in
  let sx := if x0 <? x1 then 1 else -1 in
  let dy := - Z.abs (y1 - y0) in
  let sy := if y0 <? y1 then 1 else -1 in
  exists l,
    (forall fuel, (Z.to_nat (Z.max dx (- dy)) < fuel)%nat ->
       trace fuel x0 y0 x1 y1 = Some l)
    /\ in_int (x1 - x0) /\ in_int (y1 - y0) /\ in_int (dx + dy)
    /\ Forall (fun '(x, y, err) =>
                 in_int x /\ in_int y /\ in_int err /\ in_int (2 * err)
                 /\ in_int (err + dy) /\ in_int (err + dx)
                 /\ in_int (err + dy + dx)
                 /\ in_int (x + sx) /\ in_int (y + sy)) l.
Proof.
  intros Hx0 Hy0 Hx1 Hy1 dx sx dy sy.
  destruct (trace_in_range x0 y0 x1 y1 Hx0 Hy0 Hx1 Hy1)
    as (front & e & Hrun & _ & _ & _ & _ & Hall).
  cbn zeta in *. exists (front ++ [(x1, y1, e)]).
  assert (Hdy : - dy = Z.abs (y1 - y0)) by (unfold dy; lia).
  split; [intros fuel Hf; apply Hrun; rewrite <- Hdy; exact Hf|].
  split; [|split; [|split]].
  1-3: unfold in_int, dx, dy; change (2 ^ 28) with 268435456 in *;
    change (2 ^ 31) with 2147483648; lia.
  eapply Forall_impl; [|exact Hall].
  intros [[x y] err] (i & j & HI).
  exact (invariant_in_int x0 y0 x1 y1 i j x y err Hx0 Hy0 Hx1 Hy1 HI).
Qed.

Lemma bresenham_no_overflow_witness :
  exists l,
    (forall fuel, (Z.to_nat (Z.max (Z.abs (5 - 0)) (- - Z.abs (2 - 0))) < fuel)%nat ->
       trace fuel 0 0 5 2 = Some l)
    /\ in_int (5 - 0) /\ in_int (2 - 0)
    /\ in_int (Z.abs (5 - 0) + - Z.abs (2 - 0))
    /\ Forall (fun '(x, y, err) =>
                 in_int x /\ in_int y /\ in_int err /\ in_int (2 * err)
                 /\ in_int (err + - Z.abs (2 - 0))
                 /\ in_int (err + Z.abs (5 - 0))
                 /\ in_int (err + - Z.abs (2 - 0) + Z.abs (5 - 0))
                 /\ in_int (x + (if 0 <? 5 then 1 else -1))
                 /\ in_int (y + (if 0 <? 2 then 1 else -1))) l.
Proof. apply (bresenham_no_overflow 0 0 5 2); vm_compute; discriminate. Defined.

End BresenhamProofs.

(** * Properties of xiaolinWuLine *)

Module WuProofs.
Import Wu Lqa.
Open Scope Q_scope.

(** ** Floats up to [==] *)

#[local] Instance floorf_compat : Proper (Qeq ==> Qeq) floorf.
Proof. intros x y H. unfold floorf. now rewrite H. Qed.

#[local] Instance ceilf_compat : Proper (Qeq ==> Qeq) ceilf.
Proof. intros x y H. unfold ceilf. now rewrite H. Qed.

#[local] Instance fpart_compat : Proper (Qeq ==> Qeq) fpart.
Proof. intros x y H. unfold fpart. now rewrite H. Qed.

#[local] Instance rfpart_compat : Proper (Qeq ==> Qeq) rfpart.
Proof. intros x y H. unfold rfpart. now rewrite H. Qed.

#[local] Instance gtb_compat : Proper (Qeq ==> Qeq ==> eq) gtb.
Proof. intros a a' Ha c c' Hc. unfold gtb. now rewrite Ha, Hc. Qed.

#[local] Instance gradient_compat :
  Proper (Qeq ==> Qeq ==> Qeq ==> Qeq ==> Qeq) gradient.
Proof.
  intros a a' Ha c c' Hc d d' Hd e e' He. unfold gradient, eqb.
  assert (Hb : Qeq_bool (d - a) 0 = Qeq_bool (d' - a') 0) by now rewrite Ha, Hd.
  rewrite <- Hb. destruct (Qeq_bool (d - a) 0); [reflexivity|].
  now rewrite Ha, Hc, Hd, He.
Qed.

Lemma veq_refl v : veq v v.
Proof. unfold veq. repeat split; reflexivity. Qed.

Lemma Forall2_veq_refl l : Forall2 veq l l.
Proof. induction l; constructor; auto using veq_refl. Qed.

Lemma to_int_integer z :
  to_int (inject_Z z)
  = if ((- 2 ^ 31 <=? z) && (z <=? 2 ^ 31 - 1))%Z then z else (- 2 ^ 31)%Z.
Proof. unfold to_int. simpl. now rewrite Z.quot_1_r. Qed.


Lemma gtb_true a c : gtb a c = true <-> c < a.
Proof.
  unfold gtb. rewrite negb_true_iff, <- not_true_iff_false, Qle_bool_iff.
  split; [apply Qnot_le_lt | apply Qlt_not_le].
Qed.

Lemma gtb_false a c : gtb a c = false <-> a <= c.
Proof. unfold gtb. now rewrite negb_false_iff, Qle_bool_iff. Qed.

Lemma fpart_range x : 0 <= fpart x < 1.
Proof.
  unfold fpart, floorf. pose proof (Qfloor_le x). pose proof (Qlt_floor x).
  rewrite inject_Z_plus in H0. change (inject_Z 1) with 1 in H0. lra.
Qed.

Lemma rfpart_fpart x : rfpart x + fpart x == 1.
Proof. unfold rfpart. ring. Qed.

(** ** The shape of the output *)

Lemma rasterize_shape width height r g b steep X0 Y0 X1 Y1 :
  rasterize width height r g b steep X0 Y0 X1 Y1
  = endpoint width height r g b steep (floorf X0)
      (floorf (yend1 X0 Y0 X1 Y1)) (yend1 X0 Y0 X1 Y1) (xgap1 X0)
    ++ endpoint width height r g b steep (ceilf X1)
         (floorf (yend2 X0 Y0 X1 Y1)) (yend2 X0 Y0 X1 Y1) (xgap2 X1)
    ++ (let x := (to_int (floorf X0) + 1)%Z in
        let n := Z.to_nat (to_int (ceilf X1) - x) in
        let intery := yend1 X0 Y0 X1 Y1 + gradient X0 Y0 X1 Y1 in
        if steep
        then sweep_steep width height r g b (gradient X0 Y0 X1 Y1) n x intery
        else sweep_flat width height r g b (gradient X0 Y0 X1 Y1) n x intery).
Proof. reflexivity. Qed.

Lemma endpoint_shape width height r g b steep xpxl ypxl yend xgap :
  exists lo hi,
    endpoint width height r g b steep xpxl ypxl yend xgap = [lo; hi]
    /\ Vertex.alpha lo = rfpart yend * xgap
    /\ Vertex.alpha hi = fpart yend * xgap
    /\ position lo = place steep width height xpxl ypxl
    /\ position hi = place steep width height xpxl (ypxl + 1)
    /\ (Vertex.r lo, Vertex.g lo, Vertex.b lo) = (r, g, b)
    /\ (Vertex.r hi, Vertex.g hi, Vertex.b hi) = (r, g, b).
Proof.
  unfold endpoint, place. destruct steep; do 2 eexists; repeat split.
Qed.

Lemma pairs_sweep_steep width height r g b gradient n :
  forall x intery,
    Forall (fun p => coverage_sum p == 1)
      (pairs (sweep_steep width height r g b gradient n x intery)).
Proof.
  induction n as [|n IH]; intros x intery; simpl; constructor; [|apply IH].
  unfold coverage_sum. simpl. apply rfpart_fpart.
Qed.

Lemma pairs_sweep_flat width height r g b gradient n :
  forall x intery,
    Forall (fun p => coverage_sum p == 1)
      (pairs (sweep_flat width height r g b gradient n x intery)).
Proof.
  induction n as [|n IH]; intros x intery; simpl; constructor; [|apply IH].
  unfold coverage_sum. simpl. apply rfpart_fpart.
Qed.

Lemma xiaolinWuLine_shape x0 y0 x1 y1 width height r g b :
  xiaolinWuLine x0 y0 x1 y1 width height r g b
  = let '(X0, Y0, X1, Y1) := orient (is_steep x0 y0 x1 y1) x0 y0 x1 y1 in
    rasterize width height r g b (is_steep x0 y0 x1 y1) X0 Y0 X1 Y1.
Proof. reflexivity. Qed.

Lemma integral_ceilf x : fpart x == 0 -> ceilf x == x.
Proof.
  unfold fpart, floorf, ceilf. intros H.
  assert (Hx : x == inject_Z (Qfloor x)) by lra.
  rewrite Hx at 1. rewrite Qceiling_Z. lra.
Qed.

Lemma xgap1_range x : 0 < xgap1 x <= 1.
Proof. pose proof (fpart_range x). unfold xgap1, fpart in *. lra. Qed.

Lemma xgap2_range x : 1 <= xgap2 x < 2.
Proof.
  unfold xgap2, ceilf. pose proof (Qle_ceiling x). pose proof (Qceiling_lt x).
  unfold Z.sub in H0. rewrite inject_Z_plus in H0.
  change (inject_Z (- (1))%Z) with (- (1))%Q in H0. lra.
Qed.

(** ** Outputs up to [==] *)

#[local] Instance yend1_compat :
  Proper (Qeq ==> Qeq ==> Qeq ==> Qeq ==> Qeq) yend1.
Proof.
  intros a a' Ha c c' Hc d d' Hd e e' He. unfold yend1.
  now rewrite Ha, Hc, Hd, He.
Qed.

#[local] Instance yend2_compat :
  Proper (Qeq ==> Qeq ==> Qeq ==> Qeq ==> Qeq) yend2.
Proof.
  intros a a' Ha c c' Hc d d' Hd e e' He. unfold yend2.
  now rewrite Ha, Hc, Hd, He.
Qed.

Lemma endpoint_compat width height r g b steep p p' s s' y y' k k' :
  p == p' -> s == s' -> y == y' -> k == k' ->
  Forall2 veq (endpoint width height r g b steep p s y k)
    (endpoint width height r g b steep p' s' y' k').
Proof.
  intros Hp Hs Hy Hk. unfold endpoint.
  destruct steep; repeat constructor; unfold veq; simpl;
    repeat split; try reflexivity; now rewrite ?Hp, ?Hs, ?Hy, ?Hk.
Qed.

Lemma sweep_steep_compat width height r g b k k' n :
  k == k' -> forall x i i', i == i' ->
  Forall2 veq (sweep_steep width height r g b k n x i)
    (sweep_steep width height r g b k' n x i').
Proof.
  intros Hk. induction n as [|n IH]; intros x i i' Hi; simpl.
  - constructor.
  - constructor; [|constructor; [|apply IH; now rewrite Hi, Hk]];
      unfold veq; simpl; repeat split; try reflexivity; now rewrite Hi.
Qed.

Lemma sweep_flat_compat width height r g b k k' n :
  k == k' -> forall x i i', i == i' ->
  Forall2 veq (sweep_flat width height r g b k n x i)
    (sweep_flat width height r g b k' n x i').
Proof.
  intros Hk. induction n as [|n IH]; intros x i i' Hi; simpl.
  - constructor.
  - constructor; [|constructor; [|apply IH; now rewrite Hi, Hk]];
      unfold veq; simpl; repeat split; try reflexivity; now rewrite Hi.
Qed.

Lemma rasterize_compat width height r g b steep X0 Y0 X1 Y1 X0' Y0' X1' Y1' :
  X0 == X0' -> Y0 == Y0' -> X1 == X1' -> Y1 == Y1' ->
  Forall2 veq (rasterize width height r g b steep X0 Y0 X1 Y1)
    (rasterize width height r g b steep X0' Y0' X1' Y1').
Proof.
  intros H0 H1 H2 H3. rewrite !rasterize_shape. cbv zeta.
  assert (Hg : gradient X0 Y0 X1 Y1 == gradient X0' Y0' X1' Y1')
    by now rewrite H0, H1, H2, H3.
  assert (Hy1 : yend1 X0 Y0 X1 Y1 == yend1 X0' Y0' X1' Y1')
    by now rewrite H0, H1, H2, H3.
  assert (Hy2 : yend2 X0 Y0 X1 Y1 == yend2 X0' Y0' X1' Y1')
    by now rewrite H0, H1, H2, H3.
  replace (to_int (floorf X0')) with (to_int (floorf X0))
    by (unfold floorf; now rewrite (Qfloor_comp _ _ H0)).
  replace (to_int (ceilf X1')) with (to_int (ceilf X1))
    by (unfold ceilf; now rewrite (Qceiling_comp _ _ H2)).
  repeat apply Forall2_app.
  - apply endpoint_compat; try assumption; unfold xgap1; now rewrite ?Hy1, ?H0.
  - apply endpoint_compat; try assumption; unfold xgap2; now rewrite ?Hy2, ?H2.
  - destruct steep; [apply sweep_steep_compat | apply sweep_flat_compat];
      try assumption; now rewrite Hg, Hy1.
Qed.

(** ** Coverage *)

(** C1, as the code has it: the vertices come in pairs, first the pair of
    each endpoint, then one pair per interior column.  Every interior pair
    has coverage sum 1.  An endpoint pair has coverage sum equal to the gap
    of that endpoint; the gap of the first endpoint is [1 - fpart X0], and a
    gap is 1 when the primary coordinate of the endpoint is an integer. *)
Theorem wu_coverage_split x0 y0 x1 y1 width height r g b :
  exists X0 Y0 X1 Y1 p1 p2 interior,
    orient (is_steep x0 y0 x1 y1) x0 y0 x1 y1 = (X0, Y0, X1, Y1)
    /\ pairs (xiaolinWuLine x0 y0 x1 y1 width height r g b)
       = p1 :: p2 :: interior
    /\ coverage_sum p1 == xgap1 X0
    /\ xgap1 X0 == 1 - fpart X0
    /\ coverage_sum p2 == xgap2 X1
    /\ (fpart X0 == 0 -> coverage_sum p1 == 1)
    /\ (fpart X1 == 0 -> coverage_sum p2 == 1)
    /\ Forall (fun p => coverage_sum p == 1) interior.
Proof.
  rewrite xiaolinWuLine_shape.
  destruct (orient (is_steep x0 y0 x1 y1) x0 y0 x1 y1) as [[[X0 Y0] X1] Y1].
  rewrite rasterize_shape. cbv zeta.
  destruct (endpoint_shape width height r g b (is_steep x0 y0 x1 y1)
              (floorf X0) (floorf (yend1 X0 Y0 X1 Y1)) (yend1 X0 Y0 X1 Y1)
              (xgap1 X0)) as (lo1 & hi1 & -> & Hlo1 & Hhi1 & _).
  destruct (endpoint_shape width height r g b (is_steep x0 y0 x1 y1)
              (ceilf X1) (floorf (yend2 X0 Y0 X1 Y1)) (yend2 X0 Y0 X1 Y1)
              (xgap2 X1)) as (lo2 & hi2 & -> & Hlo2 & Hhi2 & _).
  exists X0, Y0, X1, Y1, (lo1, hi1), (lo2, hi2). eexists.
  split; [reflexivity|]. split; [reflexivity|].
  unfold coverage_sum. cbn [fst snd]. rewrite Hlo1, Hhi1, Hlo2, Hhi2.
  assert (E1 : rfpart (yend1 X0 Y0 X1 Y1) * xgap1 X0
               + fpart (yend1 X0 Y0 X1 Y1) * xgap1 X0 == xgap1 X0)
    by (unfold rfpart; ring).
  assert (E2 : rfpart (yend2 X0 Y0 X1 Y1) * xgap2 X1
               + fpart (yend2 X0 Y0 X1 Y1) * xgap2 X1 == xgap2 X1)
    by (unfold rfpart; ring).
  split; [exact E1|]. split; [reflexivity|]. split; [exact E2|].
  split; [|split].
  - intros H. rewrite E1. unfold xgap1. unfold fpart in H. lra.
  - intros H. rewrite E2. unfold xgap2. pose proof (integral_ceilf _ H). lra.
  - destruct (is_steep x0 y0 x1 y1);
      [apply pairs_sweep_steep | apply pairs_sweep_flat].
Qed.

(** The segment from (0.5, 0) to (3.5, 0): the pair of the first endpoint
    has coverage 0.5 and 0. *)
Lemma wu_coverage_split_counterexample :
  exists p rest,
    pairs (xiaolinWuLine (1#2) 0 (7#2) 0 100 100 1 0 1) = p :: rest
    /\ coverage_sum p == 1#2 /\ ~ coverage_sum p == 1.
Proof.
  eexists. eexists. split; [reflexivity|]. split; [reflexivity|].
  intros H. vm_compute in H. discriminate H.
Qed.

(** C2 fails on the code: on the segment from (0.5, 0) to (3.5, 0) the
    first vertex of the second endpoint carries coverage 1.5. *)
Theorem wu_coverage_above_one :
  exists lo1 hi1 lo2 rest,
    xiaolinWuLine (1#2) 0 (7#2) 0 100 100 1 0 1 = lo1 :: hi1 :: lo2 :: rest
    /\ Vertex.alpha lo2 == 3#2 /\ 1 < Vertex.alpha lo2.
Proof.
  do 4 eexists. split; [reflexivity|]. split; reflexivity.
Qed.

Lemma sweep_steep_range width height r g b gradient n :
  forall x intery,
    Forall (fun v => 0 <= Vertex.alpha v <= 1)
      (sweep_steep width height r g b gradient n x intery).
Proof.
  induction n as [|n IH]; intros x i; cbn [sweep_steep]; [constructor|].
  cbv zeta. pose proof (fpart_range i).
  constructor; [|constructor; [|apply IH]];
    cbn [Vertex.alpha pushVertex]; unfold rfpart; lra.
Qed.

Lemma sweep_flat_range width height r g b gradient n :
  forall x intery,
    Forall (fun v => 0 <= Vertex.alpha v <= 1)
      (sweep_flat width height r g b gradient n x intery).
Proof.
  induction n as [|n IH]; intros x i; cbn [sweep_flat]; [constructor|].
  cbv zeta. pose proof (fpart_range i).
  constructor; [|constructor; [|apply IH]];
    cbn [Vertex.alpha pushVertex]; unfold rfpart; lra.
Qed.

(** Every coverage the code emits for the first endpoint and for the
    interior columns lies in [0, 1]; the two of the second endpoint lie in
    [0, 2]. *)
Theorem wu_coverage_range x0 y0 x1 y1 width height r g b :
  exists lo1 hi1 lo2 hi2 interior,
    xiaolinWuLine x0 y0 x1 y1 width height r g b
    = lo1 :: hi1 :: lo2 :: hi2 :: interior
    /\ 0 <= Vertex.alpha lo1 <= 1 /\ 0 <= Vertex.alpha hi1 <= 1
    /\ 0 <= Vertex.alpha lo2 <= 2 /\ 0 <= Vertex.alpha hi2 <= 2
    /\ Forall (fun v => 0 <= Vertex.alpha v <= 1) interior.
Proof.
  rewrite xiaolinWuLine_shape.
  destruct (orient (is_steep x0 y0 x1 y1) x0 y0 x1 y1) as [[[X0 Y0] X1] Y1].
  rewrite rasterize_shape. cbv zeta.
  destruct (endpoint_shape width height r g b (is_steep x0 y0 x1 y1)
              (floorf X0) (floorf (yend1 X0 Y0 X1 Y1)) (yend1 X0 Y0 X1 Y1)
              (xgap1 X0)) as (lo1 & hi1 & -> & Hlo1 & Hhi1 & _).
  destruct (endpoint_shape width height r g b (is_steep x0 y0 x1 y1)
              (ceilf X1) (floorf (yend2 X0 Y0 X1 Y1)) (yend2 X0 Y0 X1 Y1)
              (xgap2 X1)) as (lo2 & hi2 & -> & Hlo2 & Hhi2 & _).
  exists lo1, hi1, lo2, hi2. eexists. split; [reflexivity|].
  rewrite Hlo1, Hhi1, Hlo2, Hhi2. unfold rfpart.
  pose proof (fpart_range (yend1 X0 Y0 X1 Y1)) as F1.
  pose proof (fpart_range (yend2 X0 Y0 X1 Y1)) as F2.
  pose proof (xgap1_range X0) as G1. pose proof (xgap2_range X1) as G2.
  split; [nra|]. split; [nra|]. split; [nra|]. split; [nra|].
  destruct (is_steep x0 y0 x1 y1);
    [apply sweep_steep_range | apply sweep_flat_range].
Qed.


(** C3 fails on the code: on the segment from (0.5, 0) to (3.5, 0) the gap
    of the second endpoint is 1.5, not [1 - fpart 3.5 = 0.5], and its lower
    pixel receives 1.5 where the claim gives 0.5. *)
Theorem wu_second_endpoint_gap :
  exists lo1 hi1 lo2 rest,
    orient (is_steep (1#2) 0 (7#2) 0) (1#2) 0 (7#2) 0 = (1#2, 0, 7#2, 0)
    /\ xiaolinWuLine (1#2) 0 (7#2) 0 100 100 1 0 1
       = lo1 :: hi1 :: lo2 :: rest
    /\ xgap2 (7#2) == 3#2
    /\ 1 - fpart (7#2) == 1#2
    /\ Vertex.alpha lo2 == 3#2
    /\ (1 - fpart (yend2 (1#2) 0 (7#2) 0)) * (1 - fpart (7#2)) == 1#2
    /\ ~ Vertex.alpha lo2
         == (1 - fpart (yend2 (1#2) 0 (7#2) 0)) * (1 - fpart (7#2)).
Proof.
  do 4 eexists. split; [reflexivity|]. split; [reflexivity|].
  split; [reflexivity|]. split; [reflexivity|].
  split; [reflexivity|]. split; [reflexivity|].
  intros H. vm_compute in H. discriminate H.
Qed.

(** ** Symmetry *)

(** C8: rasterizing (A, B) and (B, A) yields the same vertices, in the same
    order, up to the equality of floats. *)
Theorem wu_symmetric x0 y0 x1 y1 width height r g b :
  Forall2 veq (xiaolinWuLine x0 y0 x1 y1 width height r g b)
    (xiaolinWuLine x1 y1 x0 y0 width height r g b).
Proof.
  rewrite !xiaolinWuLine_shape.
  assert (Hs : is_steep x1 y1 x0 y0 = is_steep x0 y0 x1 y1).
  { unfold is_steep. now rewrite (Qabs_Qminus y0 y1), (Qabs_Qminus x0 x1). }
  rewrite Hs. unfold orient.
  destruct (is_steep x0 y0 x1 y1) eqn:Hsteep; unfold is_steep in Hsteep.
  - destruct (gtb y0 y1) eqn:H01, (gtb y1 y0) eqn:H10;
      try apply Forall2_veq_refl.
    + apply gtb_true in H01, H10. lra.
    + apply gtb_false in H01, H10. apply gtb_true in Hsteep.
      assert (E : y1 - y0 == 0) by lra. rewrite E in Hsteep.
      pose proof (Qabs_nonneg (x1 - x0)). change (Qabs 0) with 0 in Hsteep. lra.
  - destruct (gtb x0 x1) eqn:H01, (gtb x1 x0) eqn:H10;
      try apply Forall2_veq_refl.
    + apply gtb_true in H01, H10. lra.
    + apply gtb_false in H01, H10, Hsteep.
      assert (E : x1 - x0 == 0) by lra. rewrite E in Hsteep.
      change (Qabs 0) with 0 in Hsteep.
      apply Qabs_Qle_condition in Hsteep.
      apply rasterize_compat; lra.
Qed.

End WuProofs.

(** * Properties of generateLines *)

Module RadialProofs.
Import Radial Int32Proofs Lra.

(** [k] iterations from [angle] on, when the counter stays an [int]. *)
Lemma loop_run x0 y0 radius angleStep :
  (0 < angleStep)%Z ->
  forall k angle,
    (- 2 ^ 31 <= angle)%Z ->
    (angle + Z.of_nat k * angleStep <= 2 ^ 31 - 1)%Z ->
    (360 <= angle + Z.of_nat k * angleStep)%Z ->
    (k = 0%nat \/ angle + (Z.of_nat k - 1) * angleStep < 360)%Z ->
    (forall fuel, (k <= fuel)%nat ->
       loop x0 y0 radius angleStep fuel angle
       = Some (map (fun i => line_at x0 y0 radius
                               (angle + Z.of_nat i * angleStep)) (seq 0 k)))
    /\ (forall fuel, (fuel < k)%nat ->
         loop x0 y0 radius angleStep fuel angle = None).
Proof.
  intros Hstep. induction k as [|k IH]; intros angle Hlo Hhi Hge Hlt.
  - assert (Hc : (angle <? 360)%Z = false) by (apply Z.ltb_ge; lia).
    split; [|intros fuel Hf; lia].
    intros [|fuel] _; cbn [loop]; now rewrite Hc.
  - assert (Hc : (angle <? 360)%Z = true) by (apply Z.ltb_lt; nia).
    assert (Hw : wrap (angle + angleStep) = (angle + angleStep)%Z)
      by (apply wrap_id; nia).
    destruct (IH (angle + angleStep)%Z) as [Hrun Hnone]; [lia|lia|lia| |].
    { destruct k; [now left|right]; lia. }
    split.
    + intros [|fuel] Hf; [lia|]. cbn [loop]. rewrite Hc, Hw, Hrun by lia.
      cbn [option_map seq map]. do 2 f_equal.
      * f_equal. lia.
      * rewrite <- seq_shift, map_map. apply map_ext. intros i.
        f_equal. lia.
    + intros [|fuel] Hf; cbn [loop]; rewrite Hc; [reflexivity|].
      now rewrite Hw, Hnone by lia.
Qed.

(** With a step of 0 the counter stays 0. *)
Lemma loop_stuck x0 y0 radius fuel :
  loop x0 y0 radius 0 fuel 0 = None.
Proof.
  induction fuel as [|fuel IH]; cbn [loop]; [reflexivity|].
  change (wrap (0 + 0)) with 0%Z. now rewrite IH.
Qed.

Lemma iterations_spec angleStep :
  (0 < angleStep)%Z ->
  let n := Z.to_nat ((359 + angleStep) / angleStep) in
  (360 <= Z.of_nat n * angleStep)%Z
  /\ ((Z.of_nat n - 1) * angleStep < 360)%Z /\ (0 < n)%nat
  /\ (Z.of_nat n * angleStep <= Z.max 718 angleStep)%Z.
Proof.
  intros Hstep n.
  pose proof (Z.mul_div_le (359 + angleStep) angleStep Hstep).
  pose proof (Z.mul_succ_div_gt (359 + angleStep) angleStep Hstep).
  assert (0 <= (359 + angleStep) / angleStep)%Z
    by (apply Z.div_pos; lia).
  unfold n. rewrite Z2Nat.id by assumption.
  split; [nia|]. split; [nia|]. split; [nia|].
  destruct (Z_lt_le_dec angleStep 360) as [Hs|Hs]; [lia|].
  assert ((359 + angleStep) / angleStep = 1)%Z by nia. lia.
Qed.

(** ** The constant 3.14159 against [PI] *)

Open Scope R_scope.

Lemma PI_bounds : 3.1415926 < PI < 3.1415927.
Proof.
  pose proof (PI_2_3_7_ineq 3) as H.
  unfold sum_f_R0, tg_alt, PI_2_3_7_tg, Ratan_seq in H.
  cbn [Nat.mul Nat.add INR pow] in H.
  lra.
Qed.

Lemma sin_lower d : 0 <= d <= 1 -> d - d * d * d / 6 <= sin d.
Proof.
  intros Hd. pose proof PI_bounds.
  destruct (SIN d) as [Hl _]; [lra|lra|].
  unfold sin_lb, sin_approx, sum_f_R0, sin_term in Hl.
  rewrite !INR_IZR_INZ in Hl.
  cbn [Nat.mul Nat.add pow] in Hl.
  change (Z.of_nat (fact 1)) with 1%Z in Hl.
  change (Z.of_nat (fact 3)) with 6%Z in Hl.
  change (Z.of_nat (fact 5)) with 120%Z in Hl.
  change (Z.of_nat (fact 7)) with 5040%Z in Hl.
  assert (0 <= d * d <= 1) by nra.
  assert (0 <= d * d * d * d * d) by (repeat apply Rmult_le_pos; lra).
  nra.
Qed.

(** The cosine and the sine of the radians the source computes for 90
    degrees. *)
Lemma quarter_turn :
  129 / 100000000 < cos 1.570795 < 136 / 100000000
  /\ 1 - cos 1.570795 * cos 1.570795 <= sin 1.570795 <= 1.
Proof.
  pose proof PI_bounds as HPI.
  set (d := PI / 2 - 1.570795).
  assert (Hd : 13 / 10000000 < d < 136 / 100000000) by (unfold d; lra).
  assert (Hc : cos 1.570795 = sin d) by (unfold d; now rewrite sin_shift).
  assert (Hs0 : 0 < sin 1.570795) by (apply sin_gt_0; lra).
  pose proof (SIN_bound 1.570795) as Hs1.
  pose proof (sin2_cos2 1.570795) as Hsq. unfold Rsqr in Hsq.
  assert (Hsd : d - d * d * d / 6 <= sin d) by (apply sin_lower; lra).
  assert (Hsd' : sin d < d) by (apply sin_lt_x; lra).
  assert (Hdd : 0 <= d * d * d <= 1 / 100000000) by nra.
  rewrite Hc in *. split; [lra|]. split; [nra|lra].
Qed.

Lemma ends_near_0 : ends_near (line_at 0 0 10 0) 10 0.
Proof.
  unfold ends_near, line_at, tolerance. cbn [Line.x1 Line.y1].
  replace (IZR 0 * 3.14159 / 180) with 0 by lra.
  rewrite cos_0, sin_0.
  split; apply Rabs_le; lra.
Qed.

Lemma ends_near_90 : ends_near (line_at 0 0 10 90) 0 10.
Proof.
  unfold ends_near, line_at, tolerance. cbn [Line.x1 Line.y1].
  replace (IZR 90 * 3.14159 / 180) with 1.570795 by lra.
  destruct quarter_turn as [Hc Hs].
  split; apply Rabs_le; nra.
Qed.

Lemma ends_near_180 : ends_near (line_at 0 0 10 180) (-10) 0.
Proof.
  unfold ends_near, line_at, tolerance. cbn [Line.x1 Line.y1].
  replace (IZR 180 * 3.14159 / 180) with (2 * 1.570795) by lra.
  rewrite cos_2a_cos, sin_2a.
  destruct quarter_turn as [Hc Hs].
  split; apply Rabs_le; nra.
Qed.

Lemma ends_near_270 : ends_near (line_at 0 0 10 270) 0 (-10).
Proof.
  unfold ends_near, line_at, tolerance. cbn [Line.x1 Line.y1].
  replace (IZR 270 * 3.14159 / 180) with (2 * 1.570795 + 1.570795) by lra.
  rewrite cos_plus, sin_plus, cos_2a_cos, sin_2a.
  destruct quarter_turn as [Hc Hs].
  pose proof (sin2_cos2 1.570795) as Hsq. unfold Rsqr in Hsq.
  set (c := cos 1.570795) in *. set (s := sin 1.570795) in *.
  replace ((2 * c * c - 1) * c - 2 * s * c * s)
    with (4 * c * c * c - 3 * c) by nra.
  replace (2 * s * c * c + (2 * c * c - 1) * s)
    with (s * (4 * c * c - 1)) by ring.
  assert (0 <= c * c <= 1 / 100000000) by nra.
  split; apply Rabs_le; nra.
Qed.

(** The constant 3.14159 stands for pi: the far end of the segment at 270
    degrees, for centre (0, 0) and radius 10, is between 3/100000 and
    5/100000 to the left of the point (0, -10). *)
Theorem radial_constant_error :
  exists l0 l1 l2 l3,
    generateLines 4 0 0 10 90 = Some [l0; l1; l2; l3]
    /\ - (5 / 100000) < Line.x1 l3 - 0 < - (3 / 100000).
Proof.
  do 4 eexists. split; [reflexivity|].
  unfold line_at. cbn [Line.x1].
  change (wrap (wrap (wrap (0 + 90) + 90) + 90)) with 270%Z.
  replace (IZR 270 * 3.14159 / 180) with (2 * 1.570795 + 1.570795) by lra.
  rewrite cos_plus, cos_2a_cos, sin_2a.
  destruct quarter_turn as [Hc Hs].
  pose proof (sin2_cos2 1.570795) as Hsq. unfold Rsqr in Hsq.
  set (c := cos 1.570795) in *. set (s := sin 1.570795) in *.
  replace ((2 * c * c - 1) * c - 2 * s * c * s)
    with (4 * c * c * c - 3 * c) by nra.
  assert (0 <= c * c * c <= 1 / 100000000) by nra.
  lra.
Qed.

(** C10, as the code has it: for a positive radius and a positive step
    [generateLines] returns one segment per angle [0, step, 2 step, ...]
    below 360, each from the centre to the point at the radius and at the
    angle converted to radians with the constant 3.14159 in the place of
    pi; for centre (0, 0), radius 10 and step 90 that is four segments that
    end within 1/10000 of (10, 0), (0, 10), (-10, 0) and (0, -10). *)
Theorem radial_segments :
  (forall x0 y0 radius angleStep,
      (0 < radius)%Z -> (0 < angleStep <= 2 ^ 31 - 1)%Z ->
      let n := Z.to_nat ((359 + angleStep) / angleStep) in
      (360 <= Z.of_nat n * angleStep)%Z
      /\ ((Z.of_nat n - 1) * angleStep < 360)%Z
      /\ forall fuel, (n <= fuel)%nat ->
           generateLines fuel x0 y0 radius angleStep
           = Some (map (fun k =>
                          let angle := (Z.of_nat k * angleStep)%Z in
                          let rad := IZR angle * 3.14159 / 180 in
                          Line.make (IZR x0) (IZR y0)
                            (IZR x0 + IZR radius * cos rad)
                            (IZR y0 + IZR radius * sin rad))
                     (seq 0 n)))
  /\ exists l0 l1 l2 l3,
      (forall fuel, (4 <= fuel)%nat ->
         generateLines fuel 0 0 10 90 = Some [l0; l1; l2; l3])
      /\ ends_near l0 10 0 /\ ends_near l1 0 10
      /\ ends_near l2 (-10) 0 /\ ends_near l3 0 (-10).
Proof.
  split.
  - intros x0 y0 radius angleStep _ [Hstep Hint] n.
    destruct (iterations_spec angleStep Hstep) as (Hge & Hlt & Hn & Hmax).
    fold n in Hge, Hlt, Hn, Hmax. split; [exact Hge|]. split; [exact Hlt|].
    intros fuel Hf. unfold generateLines.
    change (2 ^ 31)%Z with 2147483648%Z in Hint.
    destruct (loop_run x0 y0 radius angleStep Hstep n 0) as [Hrun _];
      [change (2 ^ 31)%Z with 2147483648%Z; lia
      |change (2 ^ 31)%Z with 2147483648%Z; lia|lia|right; lia|].
    rewrite Hrun by exact Hf. reflexivity.
  - exists (line_at 0 0 10 0), (line_at 0 0 10 90),
      (line_at 0 0 10 180), (line_at 0 0 10 270).
    split; [|exact (conj ends_near_0 (conj ends_near_90
                      (conj ends_near_180 ends_near_270)))].
    intros fuel Hf. unfold generateLines.
    destruct (loop_run 0 0 10 90 ltac:(lia) 4 0) as [Hrun _];
      [change (2 ^ 31)%Z with 2147483648%Z; lia
      |change (2 ^ 31)%Z with 2147483648%Z; lia|lia|right; lia|].
    rewrite Hrun by exact Hf. reflexivity.
Qed.

(** The constant matters: for centre (0, 0), radius 10 and step 90 the
    fourth segment does not end at the point at 270 degrees and radius 10,
    which is (0, -10): its far end is more than 1/100000 away from that
    point in x. *)
Lemma radial_segments_counterexample :
  exists l0 l1 l2 l3,
    generateLines 4 0 0 10 90 = Some [l0; l1; l2; l3]
    /\ 0 + 10 * cos (270 * (PI / 180)) = 0
    /\ Line.x1 l3 <> 0 + 10 * cos (270 * (PI / 180))
    /\ 1 / 100000 < Rabs (Line.x1 l3 - 0).
Proof.
  do 4 eexists. split; [reflexivity|].
  assert (E : 0 + 10 * cos (270 * (PI / 180)) = 0).
  { replace (270 * (PI / 180)) with (3 * (PI / 2)) by lra.
    rewrite cos_3PI2. lra. }
  rewrite E. split; [reflexivity|].
  unfold line_at. cbn [Line.x1].
  change (wrap (wrap (wrap (0 + 90) + 90) + 90)) with 270%Z.
  replace (IZR 270 * 3.14159 / 180) with (2 * 1.570795 + 1.570795) by lra.
  rewrite cos_plus, cos_2a_cos, sin_2a.
  destruct quarter_turn as [Hc Hs].
  pose proof (sin2_cos2 1.570795) as Hsq. unfold Rsqr in Hsq.
  set (c := cos 1.570795) in *. set (s := sin 1.570795) in *.
  replace ((2 * c * c - 1) * c - 2 * s * c * s)
    with (4 * c * c * c - 3 * c) by nra.
  assert (0 <= c * c * c <= 1 / 100000000) by nra.
  split; [lra|].
  rewrite Rabs_left by lra. lra.
Qed.

End RadialProofs.

(** * The normalizer and the preconditions *)

Module CoreProofs.
Import Bresenham Wu BresenhamProofs WuProofs Lqa.
Open Scope Q_scope.

(** A position that is the normalised centre of a pixel. *)
Local Abbreviation at_pixel width height :=
  (fun v : Vertex.t =>
     exists px py : Z,
       Vertex.x v == normalize (inject_Z px) width
       /\ Vertex.y v == normalize (inject_Z py) height).

Lemma normalize_succ z d :
  (2 * (inject_Z z + 1 + (1#2))) / inject_Z d - 1
  == normalize (inject_Z (z + 1)) d.
Proof. unfold normalize. rewrite inject_Z_plus. reflexivity. Qed.

Lemma endpoint_at_pixel width height r g b steep p s yend xgap :
  Forall (at_pixel width height)
    (endpoint width height r g b steep (inject_Z p) (inject_Z s) yend xgap).
Proof.
  unfold endpoint. destruct steep; cbv zeta;
    repeat (apply Forall_cons || apply Forall_nil);
    cbn [Vertex.x Vertex.y pushVertex].
  - exists s, p. split; reflexivity.
  - exists (s + 1)%Z, p. split; [apply normalize_succ | reflexivity].
  - exists p, s. split; reflexivity.
  - exists p, (s + 1)%Z. split; [reflexivity | apply normalize_succ].
Qed.

Lemma sweep_steep_at_pixel width height r g b gradient n :
  forall x intery,
    Forall (at_pixel width height)
      (sweep_steep width height r g b gradient n x intery).
Proof.
  induction n as [|n IH]; intros x i; cbn [sweep_steep]; [constructor|].
  cbv zeta. constructor; [|constructor; [|apply IH]];
    cbn [Vertex.x Vertex.y pushVertex]; unfold floorf.
  - exists (Qfloor i), x. split; reflexivity.
  - exists (Qfloor i + 1)%Z, x. split; [apply normalize_succ | reflexivity].
Qed.

Lemma sweep_flat_at_pixel width height r g b gradient n :
  forall x intery,
    Forall (at_pixel width height)
      (sweep_flat width height r g b gradient n x intery).
Proof.
  induction n as [|n IH]; intros x i; cbn [sweep_flat]; [constructor|].
  cbv zeta. constructor; [|constructor; [|apply IH]];
    cbn [Vertex.x Vertex.y pushVertex]; unfold floorf.
  - exists x, (Qfloor i). split; reflexivity.
  - exists x, (Qfloor i + 1)%Z. split; [reflexivity | apply normalize_succ].
Qed.

(** C9: the normalizer is [(2 * (c + 0.5)) / d - 1]; it maps 0 to -0.9 and
    9 to 0.9 for dimension 10; the samples of [bresenhamLine] are the
    visited pixels under it, and every vertex of [xiaolinWuLine] is placed
    at a pixel under it. *)
Theorem normalize_applied :
  (forall c d, normalize c d = (2 * (c + (1#2))) / inject_Z d - 1)
  /\ normalize 0 10 == - (9#10)
  /\ normalize 9 10 == 9#10
  /\ (forall fuel x0 y0 x1 y1 width height,
        option_map samples (bresenhamLine fuel x0 y0 x1 y1 width height)
        = option_map
            (map (fun s => (normalize (inject_Z (fst (pixel s))) width,
                            normalize (inject_Z (snd (pixel s))) height)))
            (trace fuel x0 y0 x1 y1))
  /\ (forall x0 y0 x1 y1 width height r g b,
        Forall (fun v =>
                  exists px py : Z,
                    Vertex.x v == normalize (inject_Z px) width
                    /\ Vertex.y v == normalize (inject_Z py) height)
          (xiaolinWuLine x0 y0 x1 y1 width height r g b)).
Proof.
  split; [reflexivity|]. split; [reflexivity|]. split; [reflexivity|].
  split.
  - intros fuel x0 y0 x1 y1 width height. rewrite bresenhamLine_trace.
    destruct (trace fuel x0 y0 x1 y1) as [l|]; [|reflexivity].
    cbn [option_map]. now rewrite samples_emit.
  - intros x0 y0 x1 y1 width height r g b. rewrite xiaolinWuLine_shape.
    destruct (orient (is_steep x0 y0 x1 y1) x0 y0 x1 y1) as [[[X0 Y0] X1] Y1].
    rewrite rasterize_shape. cbv zeta.
    repeat (apply Forall_app; split).
    + apply endpoint_at_pixel.
    + apply endpoint_at_pixel.
    + destruct (is_steep x0 y0 x1 y1);
        [apply sweep_steep_at_pixel | apply sweep_flat_at_pixel].
Qed.

(** C7, as the code has it: no operation checks its arguments.  For every
    [width] and [height], positive or not, [bresenhamLine] returns its
    [max(|x1-x0|, |y1-y0|) + 1] samples (endpoints within [-2^28, 2^28]) and
    [xiaolinWuLine] returns at least the four vertices of its endpoints;
    [generateLines] returns for every positive step, and for a step of zero
    its loop condition stays true however long it runs. *)
Theorem no_precondition_checks :
  (forall x0 y0 x1 y1 width height,
      (Z.abs x0 <= 2 ^ 28)%Z -> (Z.abs y0 <= 2 ^ 28)%Z ->
      (Z.abs x1 <= 2 ^ 28)%Z -> (Z.abs y1 <= 2 ^ 28)%Z ->
      exists v,
        (forall fuel,
            (Z.to_nat (Z.max (Z.abs (x1 - x0)) (Z.abs (y1 - y0))) < fuel)%nat ->
            bresenhamLine fuel x0 y0 x1 y1 width height = Some v)
        /\ length (samples v)
           = S (Z.to_nat (Z.max (Z.abs (x1 - x0)) (Z.abs (y1 - y0)))))
  /\ (forall x0 y0 x1 y1 width height r g b,
        (4 <= length (xiaolinWuLine x0 y0 x1 y1 width height r g b))%nat)
  /\ (forall x0 y0 radius angleStep,
        (0 < angleStep <= 2 ^ 31 - 1)%Z ->
        exists l, forall fuel,
            (Z.to_nat ((359 + angleStep) / angleStep) <= fuel)%nat ->
            Radial.generateLines fuel x0 y0 radius angleStep = Some l)
  /\ (forall x0 y0 radius fuel,
        Radial.generateLines fuel x0 y0 radius 0 = None).
Proof.
  split; [|split; [|split]].
  - intros x0 y0 x1 y1 width height Hx0 Hy0 Hx1 Hy1.
    destruct (trace_pixels_result x0 y0 x1 y1 width height Hx0 Hy0 Hx1 Hy1)
      as (front & e & Hrun & _ & Hlen & _).
    cbn zeta in *. eexists. split; [exact Hrun|].
    now rewrite samples_emit, length_map.
  - intros x0 y0 x1 y1 width height r g b. rewrite xiaolinWuLine_shape.
    destruct (orient (is_steep x0 y0 x1 y1) x0 y0 x1 y1) as [[[X0 Y0] X1] Y1].
    rewrite rasterize_shape. cbv zeta.
    destruct (endpoint_shape width height r g b (is_steep x0 y0 x1 y1)
                (floorf X0) (floorf (yend1 X0 Y0 X1 Y1)) (yend1 X0 Y0 X1 Y1)
                (xgap1 X0)) as (lo1 & hi1 & -> & _).
    destruct (endpoint_shape width height r g b (is_steep x0 y0 x1 y1)
                (ceilf X1) (floorf (yend2 X0 Y0 X1 Y1)) (yend2 X0 Y0 X1 Y1)
                (xgap2 X1)) as (lo2 & hi2 & -> & _).
    cbn [app length]. lia.
  - intros x0 y0 radius angleStep [Hstep Hint].
    destruct (RadialProofs.iterations_spec angleStep Hstep)
      as (Hge & Hlt & _ & Hmax).
    change (2 ^ 31)%Z with 2147483648%Z in Hint.
    destruct (RadialProofs.loop_run x0 y0 radius angleStep Hstep
                (Z.to_nat ((359 + angleStep) / angleStep)) 0) as [Hrun _];
      [change (2 ^ 31)%Z with 2147483648%Z; lia
      |change (2 ^ 31)%Z with 2147483648%Z; lia|lia|right; lia|].
    eexists. intros fuel Hf. unfold Radial.generateLines. now apply Hrun.
  - intros x0 y0 radius fuel. apply RadialProofs.loop_stuck.
Qed.

(** With [width = height = -1] [bresenhamLine] returns a sample, and with
    step 0 [generateLines] does not return. *)
Lemma no_precondition_checks_counterexample :
  (exists a b,
      bresenhamLine 1 0 0 0 0 (-1) (-1) = Some [a; b]
      /\ samples [a; b] <> [] /\ a == - (2) /\ b == - (2))
  /\ (forall fuel, Radial.generateLines fuel 0 0 10 0 = None).
Proof.
  split.
  - do 2 eexists. split; [reflexivity|]. split; [discriminate|].
    split; reflexivity.
  - intros fuel. apply RadialProofs.loop_stuck.
Qed.

End CoreProofs.

(** * More on bresenhamLine: the path of visited pixels *)

Module BresenhamPath.
Import Bresenham Path UnboundedProofs BresenhamProofs.
Open Scope Z_scope.

Lemma linked_impl {A : Type} (R R' : A -> A -> Prop) (l : list A) :
  (forall a b, R a b -> R' a b) -> linked R l -> linked R' l.
Proof.
  intros H. induction l as [|a [|b l] IH]; cbn [linked]; auto.
  intros [Hab Hl]. split; [apply H, Hab | apply IH, Hl].
Qed.

Lemma linked_and {A : Type} (R R' : A -> A -> Prop) (l : list A) :
  linked (fun a b => R a b /\ R' a b) l -> linked R l /\ linked R' l.
Proof.
  intros H. split; eapply linked_impl; try exact H; cbv beta; tauto.
Qed.

Section Chain.

Variables (x1 y1 a b sx sy : Z).
Variable P : Z * Z * Z -> Prop.
Variable R : Z * Z * Z -> Z * Z * Z -> Prop.
Hypothesis step :
  forall s, P s -> pixel s <> (x1, y1) ->
            P (next a b sx sy s) /\ R s (next a b sx sy s).

(** Whatever one iteration preserves holds of every emitted state, and
    whatever it establishes between a state and the next holds along the
    output. *)
Lemma states_chain fuel :
  forall s l,
    P s ->
    Unbounded.states x1 y1 a b sx sy fuel (fst (fst s)) (snd (fst s)) (snd s) = Some l ->
    Forall P l /\ linked R l /\ hd_error l = Some s.
Proof using step.
  induction fuel as [|fuel IH]; intros [[x y] err] l HP; cbn [fst snd];
    [discriminate|].
  rewrite states_next.
  destruct ((x =? x1) && (y =? y1)) eqn:Hc.
  - intros [= <-].
    split; [repeat constructor; exact HP | split; [exact I | reflexivity]].
  - assert (Hpix : pixel (x, y, err) <> (x1, y1)).
    { unfold pixel; cbn [fst]. intros [= -> ->].
      now rewrite !Z.eqb_refl in Hc. }
    destruct (step _ HP Hpix) as [HP' HR].
    destruct (next a b sx sy (x, y, err)) as [[x' y'] err'] eqn:Hn.
    destruct (Unbounded.states x1 y1 a b sx sy fuel x' y' err') as [l'|] eqn:Hl;
      [|discriminate].
    intros [= <-].
    destruct (IH (x', y', err') l' HP' Hl) as (HF & HL & Hhd).
    split; [constructor; assumption|]. split; [|reflexivity].
    destruct l' as [|t l']; [discriminate|]. injection Hhd as ->.
    cbn [linked]. split; assumption.
Qed.

End Chain.

Lemma path_step x0 y0 x1 y1 s :
  let a := Z.abs (x1 - x0) in
  let b := Z.abs (y1 - y0) in
  let sx := if x0 <? x1 then 1 else -1 in
  let sy := if y0 <? y1 then 1 else -1 in
  on_path x0 y0 x1 y1 s -> pixel s <> (x1, y1) ->
  on_path x0 y0 x1 y1 (next a b sx sy s)
  /\ moves x0 y0 x1 y1 s (next a b sx sy s).
Proof.
  intros a b sx sy. unfold on_path, moves. cbv zeta. fold a b sx sy.
  assert (Ha : 0 <= a) by apply Z.abs_nonneg.
  assert (Hb : 0 <= b) by apply Z.abs_nonneg.
  assert (Hsx : sx = 1 \/ sx = -1) by (unfold sx; destruct (x0 <? x1); auto).
  assert (Hsy : sy = 1 \/ sy = -1) by (unfold sy; destruct (y0 <? y1); auto).
  assert (Hx1 : x1 = x0 + sx * a)
    by (unfold sx, a; destruct (Z.ltb_spec x0 x1); lia).
  assert (Hy1 : y1 = y0 + sy * b)
    by (unfold sy, b; destruct (Z.ltb_spec y0 y1); lia).
  destruct s as [[x y] err].
  intros (i & j & HI & Hdev) Hpix.
  assert (Hne : ~ (i = a /\ j = b)).
  { intros H. apply Hpix. unfold pixel; cbn [fst].
    destruct (proj2 (at_end x0 y0 x1 y1 a b sx sy Ha Hb Hsx Hsy Hx1 Hy1 _ _ _ _ _ HI) H)
      as [-> ->]. reflexivity. }
  unfold invariant in HI. destruct HI as (Hx & Hy & Hi & Hj & He & Hb3 & Hmaj & Hmin).
  unfold next, pixel, invariant. cbn [fst].
  destruct (Z.leb_spec b a) as [Hba|Hba].
  - specialize (Hmaj Hba). clear Hmin.
    assert (Hia : i < a) by (subst err; nia).
    destruct (Z.geb_spec (2 * err) (- b)) as [_|?]; [|lia].
    destruct (Z.leb_spec (2 * err) a) as [Hy'|Hy'].
    + assert (Hjb : j < b) by (subst err; nia).
      split.
      * exists (i + 1), (j + 1). repeat split; try lia; subst; nia.
      * repeat split; lia.
    + split.
      * exists (i + 1), j. repeat split; try lia; subst; nia.
      * repeat split; lia.
  - specialize (Hmin Hba). clear Hmaj.
    assert (Hjb : j < b) by (subst err; nia).
    destruct (Z.leb_spec (2 * err) a) as [_|?]; [|lia].
    destruct (Z.geb_spec (2 * err) (- b)) as [Hx'|Hx'].
    + assert (Hia : i < a) by (subst err; nia).
      split.
      * exists (i + 1), (j + 1). repeat split; try lia; subst; nia.
      * repeat split; lia.
    + split.
      * exists i, (j + 1). repeat split; try lia; subst; nia.
      * repeat split; lia.
Qed.

Lemma linked_Forall {A : Type} (P : A -> Prop) (R : A -> A -> Prop) l :
  Forall P l -> linked R l -> linked (fun a b => P a /\ P b /\ R a b) l.
Proof.
  induction l as [|a [|b l] IH]; cbn [linked]; auto.
  intros HF [Hab Hl]. inversion HF as [|? ? Ha HF']; subst.
  inversion HF' as [|? ? Hb _]; subst.
  split; [auto | apply IH; assumption].
Qed.

(** The run of [bresenhamLine] with what every iteration keeps, for
    endpoints within [-2^28, 2^28]. *)
Lemma path_facts x0 y0 x1 y1 width height :
  Z.abs x0 <= 2 ^ 28 -> Z.abs y0 <= 2 ^ 28 ->
  Z.abs x1 <= 2 ^ 28 -> Z.abs y1 <= 2 ^ 28 ->
  exists l,
    (forall fuel,
        (Z.to_nat (Z.max (Z.abs (x1 - x0)) (Z.abs (y1 - y0))) < fuel)%nat ->
        bresenhamLine fuel x0 y0 x1 y1 width height
        = Some (flat_map (emit width height) l))
    /\ Forall (on_path x0 y0 x1 y1) l
    /\ linked (moves x0 y0 x1 y1) l.
Proof.
  intros Hx0 Hy0 Hx1 Hy1.
  destruct (trace_run x0 y0 x1 y1) as (front & e & Hrun & _).
  cbn zeta in Hrun. set (l := front ++ [(x1, y1, e)]) in *.
  exists l. split.
  - intros fuel Hf.
    now rewrite bresenhamLine_trace, trace_unbounded, Hrun by assumption.
  - specialize (Hrun _ (Nat.lt_succ_diag_r _)). unfold Unbounded.trace in Hrun.
    destruct (states_chain x1 y1 (Z.abs (x1 - x0)) (Z.abs (y1 - y0))
                (if x0 <? x1 then 1 else -1) (if y0 <? y1 then 1 else -1)
                (on_path x0 y0 x1 y1) (moves x0 y0 x1 y1)
                (path_step x0 y0 x1 y1)
                (S (Z.to_nat (Z.max (Z.abs (x1 - x0)) (Z.abs (y1 - y0)))))
                (x0, y0, Z.abs (x1 - x0) + - Z.abs (y1 - y0)) l)
      as (HF & HL & _); [|exact Hrun|split; assumption].
    exists 0, 0. unfold invariant. repeat split; lia.
Qed.

(** For endpoints within [-2^28, 2^28] the visited pixels form an 8-connected path that never steps away from
    the end point: consecutive pixels differ by at most one in x and in y,
    are distinct, and the second is no farther from [(x1, y1)] in either
    coordinate. *)
Theorem bresenham_connected x0 y0 x1 y1 width height :
  Z.abs x0 <= 2 ^ 28 -> Z.abs y0 <= 2 ^ 28 ->
  Z.abs x1 <= 2 ^ 28 -> Z.abs y1 <= 2 ^ 28 ->
  exists l,
    (forall fuel,
        (Z.to_nat (Z.max (Z.abs (x1 - x0)) (Z.abs (y1 - y0))) < fuel)%nat ->
        bresenhamLine fuel x0 y0 x1 y1 width height
        = Some (flat_map (emit width height) l))
    /\ linked (fun s t =>
                 let '(x, y) := pixel s in
                 let '(x', y') := pixel t in
                 Z.abs (x' - x) <= 1 /\ Z.abs (y' - y) <= 1
                 /\ (x', y') <> (x, y)
                 /\ Z.abs (x1 - x') <= Z.abs (x1 - x)
                 /\ Z.abs (y1 - y') <= Z.abs (y1 - y)) l.
Proof.
  intros Hx0 Hy0 Hx1 Hy1.
  destruct (path_facts x0 y0 x1 y1 width height Hx0 Hy0 Hx1 Hy1) as (l & Hrun & HF & HL).
  exists l. split; [exact Hrun|].
  eapply linked_impl; [|exact (linked_Forall _ _ l HF HL)].
  intros [[x y] e] [[x' y'] e'] (_ & Ht & Hm).
  unfold on_path, moves, invariant, pixel in *. cbn [fst] in *.
  destruct Ht as (i & j & (Hx & Hy & Hi & Hj & _) & _).
  destruct (Z.ltb_spec x0 x1), (Z.ltb_spec y0 y1);
    (repeat split; [lia|lia| |lia|lia]); intros [= -> ->]; lia.
Qed.

Lemma bresenham_connected_witness :
  exists l,
    (forall fuel,
        (Z.to_nat (Z.max (Z.abs (5 - 0)) (Z.abs (2 - 0))) < fuel)%nat ->
        bresenhamLine fuel 0 0 5 2 100 100
        = Some (flat_map (emit 100 100) l))
    /\ linked (fun s t =>
                 let '(x, y) := pixel s in
                 let '(x', y') := pixel t in
                 Z.abs (x' - x) <= 1 /\ Z.abs (y' - y) <= 1
                 /\ (x', y') <> (x, y)
                 /\ Z.abs (5 - x') <= Z.abs (5 - x)
                 /\ Z.abs (2 - y') <= Z.abs (2 - y)) l.
Proof.
  apply (bresenham_connected 0 0 5 2 100 100); vm_compute; discriminate.
Defined.

(** For endpoints within [-2^28, 2^28]: along the major axis every
    iteration advances by one pixel, so each
    major-axis column (or row) is visited once and no pixel is emitted
    twice. *)
Theorem bresenham_major_axis x0 y0 x1 y1 width height :
  Z.abs x0 <= 2 ^ 28 -> Z.abs y0 <= 2 ^ 28 ->
  Z.abs x1 <= 2 ^ 28 -> Z.abs y1 <= 2 ^ 28 ->
  exists l,
    (forall fuel,
        (Z.to_nat (Z.max (Z.abs (x1 - x0)) (Z.abs (y1 - y0))) < fuel)%nat ->
        bresenhamLine fuel x0 y0 x1 y1 width height
        = Some (flat_map (emit width height) l))
    /\ linked (fun s t =>
                 let '(x, y) := pixel s in
                 let '(x', y') := pixel t in
                 (Z.abs (y1 - y0) <= Z.abs (x1 - x0) ->
                  x' = x + (if x0 <? x1 then 1 else -1))
                 /\ (Z.abs (x1 - x0) < Z.abs (y1 - y0) ->
                     y' = y + (if y0 <? y1 then 1 else -1))) l
    /\ NoDup (map pixel l).
Proof.
  intros Hx0 Hy0 Hx1 Hy1.
  destruct (path_facts x0 y0 x1 y1 width height Hx0 Hy0 Hx1 Hy1) as (l & Hrun & _ & HL).
  exists l. split; [exact Hrun|].
  assert (HM : linked (fun s t =>
                 let '(x, y) := pixel s in
                 let '(x', y') := pixel t in
                 (Z.abs (y1 - y0) <= Z.abs (x1 - x0) ->
                  x' = x + (if x0 <? x1 then 1 else -1))
                 /\ (Z.abs (x1 - x0) < Z.abs (y1 - y0) ->
                     y' = y + (if y0 <? y1 then 1 else -1))) l).
  { eapply linked_impl; [|exact HL].
    intros [[x y] e] [[x' y'] e'] Hm.
    unfold moves, pixel in *. cbn [fst] in *. tauto. }
  split; [exact HM|].
  (* the major coordinate, counted from the start, grows by one per step *)
  set (m := fun p : Z * Z =>
              if Z.abs (y1 - y0) <=? Z.abs (x1 - x0)
              then (if x0 <? x1 then 1 else -1) * fst p
              else (if y0 <? y1 then 1 else -1) * snd p).
  assert (Hm : linked (fun s t => m (pixel t) = m (pixel s) + 1) l).
  { eapply linked_impl; [|exact HM].
    intros [[x y] e] [[x' y'] e']. unfold pixel, m. cbn [fst snd].
    intros [H1 H2].
    destruct (Z.leb_spec (Z.abs (y1 - y0)) (Z.abs (x1 - x0))) as [H|H].
    - rewrite (H1 H). destruct (x0 <? x1); lia.
    - rewrite (H2 H). destruct (y0 <? y1); lia. }
  clear - Hm. induction l as [|s l IH]; [constructor|].
  assert (Hl : linked (fun s t => m (pixel t) = m (pixel s) + 1) l)
    by (destruct l; [exact I | apply Hm]).
  cbn [map]. constructor; [|apply IH, Hl].
  assert (Hgt : Forall (fun t => m (pixel s) < m (pixel t)) l).
  { clear IH Hl. revert s Hm. induction l as [|t l IH]; intros s Hm;
      [constructor|].
    destruct Hm as [Hst Hl]. constructor; [lia|].
    eapply Forall_impl; [|apply (IH t Hl)]. cbv beta. intros; lia. }
  intros Hin. apply in_map_iff in Hin as (t & Ht & Hin).
  rewrite Forall_forall in Hgt. specialize (Hgt t Hin). rewrite Ht in Hgt. lia.
Qed.

Lemma bresenham_major_axis_witness :
  exists l,
    (forall fuel,
        (Z.to_nat (Z.max (Z.abs (5 - 0)) (Z.abs (2 - 0))) < fuel)%nat ->
        bresenhamLine fuel 0 0 5 2 100 100
        = Some (flat_map (emit 100 100) l))
    /\ linked (fun s t =>
                 let '(x, y) := pixel s in
                 let '(x', y') := pixel t in
                 (Z.abs (2 - 0) <= Z.abs (5 - 0) ->
                  x' = x + (if 0 <? 5 then 1 else -1))
                 /\ (Z.abs (5 - 0) < Z.abs (2 - 0) ->
                     y' = y + (if 0 <? 2 then 1 else -1))) l
    /\ NoDup (map pixel l).
Proof.
  apply (bresenham_major_axis 0 0 5 2 100 100); vm_compute; discriminate.
Defined.

(** For endpoints within [-2^28, 2^28] every visited pixel lies in the
    bounding box of the two endpoints. *)
Theorem bresenham_within_box x0 y0 x1 y1 width height :
  Z.abs x0 <= 2 ^ 28 -> Z.abs y0 <= 2 ^ 28 ->
  Z.abs x1 <= 2 ^ 28 -> Z.abs y1 <= 2 ^ 28 ->
  exists l,
    (forall fuel,
        (Z.to_nat (Z.max (Z.abs (x1 - x0)) (Z.abs (y1 - y0))) < fuel)%nat ->
        bresenhamLine fuel x0 y0 x1 y1 width height
        = Some (flat_map (emit width height) l))
    /\ Forall (fun s =>
                 let '(x, y) := pixel s in
                 Z.min x0 x1 <= x <= Z.max x0 x1
                 /\ Z.min y0 y1 <= y <= Z.max y0 y1) l.
Proof.
  intros Hx0 Hy0 Hx1 Hy1.
  destruct (path_facts x0 y0 x1 y1 width height Hx0 Hy0 Hx1 Hy1) as (l & Hrun & HF & _).
  exists l. split; [exact Hrun|].
  eapply Forall_impl; [|exact HF].
  intros [[x y] e] (i & j & (Hx & Hy & Hi & Hj & _) & _).
  unfold pixel. cbn [fst].
  destruct (Z.ltb_spec x0 x1), (Z.ltb_spec y0 y1); lia.
Qed.

Lemma bresenham_within_box_witness :
  exists l,
    (forall fuel,
        (Z.to_nat (Z.max (Z.abs (5 - 0)) (Z.abs (2 - 0))) < fuel)%nat ->
        bresenhamLine fuel 0 0 5 2 100 100
        = Some (flat_map (emit 100 100) l))
    /\ Forall (fun s =>
                 let '(x, y) := pixel s in
                 Z.min 0 5 <= x <= Z.max 0 5
                 /\ Z.min 0 2 <= y <= Z.max 0 2) l.
Proof.
  apply (bresenham_within_box 0 0 5 2 100 100); vm_compute; discriminate.
Defined.

(** For endpoints within [-2^28, 2^28] every visited pixel is within half
    a pixel of the straight line from
    [(x0, y0)] to [(x1, y1)], measured along the minor axis:
    [2 * |(x1-x0)*(y-y0) - (y1-y0)*(x-x0)| <= max(|x1-x0|, |y1-y0|)]. *)
Theorem bresenham_close_to_line x0 y0 x1 y1 width height :
  Z.abs x0 <= 2 ^ 28 -> Z.abs y0 <= 2 ^ 28 ->
  Z.abs x1 <= 2 ^ 28 -> Z.abs y1 <= 2 ^ 28 ->
  exists l,
    (forall fuel,
        (Z.to_nat (Z.max (Z.abs (x1 - x0)) (Z.abs (y1 - y0))) < fuel)%nat ->
        bresenhamLine fuel x0 y0 x1 y1 width height
        = Some (flat_map (emit width height) l))
    /\ Forall (fun s =>
                 let '(x, y) := pixel s in
                 2 * Z.abs ((x1 - x0) * (y - y0) - (y1 - y0) * (x - x0))
                 <= Z.max (Z.abs (x1 - x0)) (Z.abs (y1 - y0))) l.
Proof.
  intros Hx0 Hy0 Hx1 Hy1.
  destruct (path_facts x0 y0 x1 y1 width height Hx0 Hy0 Hx1 Hy1) as (l & Hrun & HF & _).
  exists l. split; [exact Hrun|].
  eapply Forall_impl; [|exact HF].
  intros [[x y] e] (i & j & (Hx & Hy & _) & Hdev).
  unfold pixel. cbn [fst].
  assert (E : Z.abs ((x1 - x0) * (y - y0) - (y1 - y0) * (x - x0))
              = Z.abs (Z.abs (x1 - x0) * j - Z.abs (y1 - y0) * i)).
  { subst x y.
    destruct (Z.ltb_spec x0 x1) as [Hx|Hx], (Z.ltb_spec y0 y1) as [Hy|Hy];
      [ rewrite (Z.abs_eq (x1 - x0)), (Z.abs_eq (y1 - y0)) by lia
      | rewrite (Z.abs_eq (x1 - x0)), (Z.abs_neq (y1 - y0)) by lia
      | rewrite (Z.abs_neq (x1 - x0)), (Z.abs_eq (y1 - y0)) by lia
      | rewrite (Z.abs_neq (x1 - x0)), (Z.abs_neq (y1 - y0)) by lia ];
      match goal with |- Z.abs ?u = Z.abs ?v =>
        first [ replace u with v by ring
              | replace u with (- v) by ring; rewrite Z.abs_opp ]
      end; reflexivity. }
  rewrite E. exact Hdev.
Qed.

Lemma bresenham_close_to_line_witness :
  exists l,
    (forall fuel,
        (Z.to_nat (Z.max (Z.abs (5 - 0)) (Z.abs (2 - 0))) < fuel)%nat ->
        bresenhamLine fuel 0 0 5 2 100 100
        = Some (flat_map (emit 100 100) l))
    /\ Forall (fun s =>
                 let '(x, y) := pixel s in
                 2 * Z.abs ((5 - 0) * (y - 0) - (2 - 0) * (x - 0))
                 <= Z.max (Z.abs (5 - 0)) (Z.abs (2 - 0))) l.
Proof.
  apply (bresenham_close_to_line 0 0 5 2 100 100); vm_compute; discriminate.
Defined.

End BresenhamPath.

(** * More on xiaolinWuLine: orientation, columns, colour *)

Module WuShape.
Import Wu WuProofs Lqa.
Open Scope Q_scope.

Lemma length_sweep_steep width height r g b k n :
  forall x i, length (sweep_steep width height r g b k n x i) = (2 * n)%nat.
Proof.
  induction n as [|n IH]; intros x i; cbn [sweep_steep length]; [reflexivity|].
  rewrite IH. lia.
Qed.

Lemma length_sweep_flat width height r g b k n :
  forall x i, length (sweep_flat width height r g b k n x i) = (2 * n)%nat.
Proof.
  induction n as [|n IH]; intros x i; cbn [sweep_flat length]; [reflexivity|].
  rewrite IH. lia.
Qed.

Lemma orient_ordered steep x0 y0 x1 y1 X0 Y0 X1 Y1 :
  orient steep x0 y0 x1 y1 = (X0, Y0, X1, Y1) -> X0 <= X1.
Proof.
  unfold orient. destruct steep.
  - destruct (gtb y0 y1) eqn:H; intros [= <- <- <- <-];
      [apply gtb_true in H | apply gtb_false in H]; lra.
  - destruct (gtb x0 x1) eqn:H; intros [= <- <- <- <-];
      [apply gtb_true in H | apply gtb_false in H]; lra.
Qed.

Lemma orient_extent x0 y0 x1 y1 X0 Y0 X1 Y1 :
  orient (is_steep x0 y0 x1 y1) x0 y0 x1 y1 = (X0, Y0, X1, Y1) ->
  Qabs (Y1 - Y0) <= X1 - X0.
Proof.
  intros H. pose proof (orient_ordered _ _ _ _ _ _ _ _ _ H) as Hle.
  revert H Hle. unfold orient.
  destruct (is_steep x0 y0 x1 y1) eqn:Hs; unfold is_steep in Hs;
    [apply gtb_true in Hs | apply gtb_false in Hs].
  - destruct (gtb y0 y1); intros [= <- <- <- <-] Hle;
      revert Hs; apply Qabs_case; intros ?; apply Qabs_case; intros; try lra;
      apply Qabs_case; intros; lra.
  - destruct (gtb x0 x1); intros [= <- <- <- <-] Hle;
      revert Hs; apply Qabs_case; intros ?; apply Qabs_case; intros; try lra;
      apply Qabs_case; intros; lra.
Qed.

Lemma gradient_bound X0 Y0 X1 Y1 :
  X0 <= X1 -> Qabs (Y1 - Y0) <= X1 - X0 -> -1 <= gradient X0 Y0 X1 Y1 <= 1.
Proof.
  intros Hle Hext. unfold gradient, eqb.
  destruct (Qeq_bool (X1 - X0) 0) eqn:Hz; [lra|].
  apply Qeq_bool_neq in Hz.
  assert (Hpos : 0 < X1 - X0) by lra.
  apply Qabs_Qle_condition in Hext. split.
  - apply Qle_shift_div_l; [exact Hpos | lra].
  - apply Qle_shift_div_r; [exact Hpos | lra].
Qed.

Lemma gradient_through X0 Y0 X1 Y1 :
  X0 < X1 -> Y0 + gradient X0 Y0 X1 Y1 * (X1 - X0) == Y1.
Proof.
  intros Hlt. unfold gradient, eqb.
  destruct (Qeq_bool (X1 - X0) 0) eqn:Hz.
  - apply Qeq_bool_iff in Hz. lra.
  - field. lra.
Qed.

(** The two swaps leave working endpoints that are the inputs, transposed
    when the segment is steep and exchanged when needed, with
    [X0 <= X1] and the secondary extent no larger than the primary one; the
    gradient then lies in [-1, 1], and for [X0 < X1] the line
    [Y0 + gradient * (x - X0)] passes through the second endpoint. *)
Theorem wu_orientation x0 y0 x1 y1 :
  exists X0 Y0 X1 Y1,
    orient (is_steep x0 y0 x1 y1) x0 y0 x1 y1 = (X0, Y0, X1, Y1)
    /\ ((X0, Y0, X1, Y1) = (x0, y0, x1, y1)
        \/ (X0, Y0, X1, Y1) = (x1, y1, x0, y0)
        \/ (X0, Y0, X1, Y1) = (y0, x0, y1, x1)
        \/ (X0, Y0, X1, Y1) = (y1, x1, y0, x0))
    /\ X0 <= X1
    /\ Qabs (Y1 - Y0) <= X1 - X0
    /\ -1 <= gradient X0 Y0 X1 Y1 <= 1
    /\ (X0 < X1 -> Y0 + gradient X0 Y0 X1 Y1 * (X1 - X0) == Y1).
Proof.
  destruct (orient (is_steep x0 y0 x1 y1) x0 y0 x1 y1)
    as [[[X0 Y0] X1] Y1] eqn:Ho.
  exists X0, Y0, X1, Y1.
  pose proof (orient_ordered _ _ _ _ _ _ _ _ _ Ho) as Hle.
  pose proof (orient_extent _ _ _ _ _ _ _ _ Ho) as Hext.
  split; [reflexivity|]. split.
  { revert Ho. unfold orient.
    destruct (is_steep x0 y0 x1 y1);
      [destruct (gtb y0 y1) | destruct (gtb x0 x1)];
      intros [= <- <- <- <-]; auto. }
  split; [exact Hle|]. split; [exact Hext|].
  split; [apply gradient_bound; assumption | apply gradient_through].
Qed.

Lemma vertex_count x0 y0 x1 y1 width height r g b :
  exists X0 Y0 X1 Y1,
    orient (is_steep x0 y0 x1 y1) x0 y0 x1 y1 = (X0, Y0, X1, Y1)
    /\ length (xiaolinWuLine x0 y0 x1 y1 width height r g b)
       = (4 + 2 * Z.to_nat (to_int (ceilf X1) - (to_int (floorf X0) + 1)))%nat.
Proof.
  rewrite xiaolinWuLine_shape.
  destruct (orient (is_steep x0 y0 x1 y1) x0 y0 x1 y1) as [[[X0 Y0] X1] Y1].
  exists X0, Y0, X1, Y1. split; [reflexivity|].
  rewrite rasterize_shape. cbv zeta.
  destruct (endpoint_shape width height r g b (is_steep x0 y0 x1 y1)
              (floorf X0) (floorf (yend1 X0 Y0 X1 Y1)) (yend1 X0 Y0 X1 Y1)
              (xgap1 X0)) as (lo1 & hi1 & -> & _).
  destruct (endpoint_shape width height r g b (is_steep x0 y0 x1 y1)
              (ceilf X1) (floorf (yend2 X0 Y0 X1 Y1)) (yend2 X0 Y0 X1 Y1)
              (xgap2 X1)) as (lo2 & hi2 & -> & _).
  cbn [app length].
  destruct (is_steep x0 y0 x1 y1);
    [rewrite length_sweep_steep | rewrite length_sweep_flat]; lia.
Qed.





Lemma ceiling_floor x : (Qceiling x <= Qfloor x + 1)%Z.
Proof.
  pose proof (Qceiling_lt x) as H1. pose proof (Qlt_floor x) as H2.
  assert (H : inject_Z (Qceiling x - 1) < inject_Z (Qfloor x + 1))
    by (eapply Qlt_trans; eassumption).
  rewrite <- Zlt_Qlt in H. lia.
Qed.

(** Whatever the conversions to [int] give, the loop from
    [int(floor x) + 1] up to [int(ceil x)] is empty. *)
Lemma to_int_ceiling_floor x : (to_int (ceilf x) <= to_int (floorf x) + 1)%Z.
Proof.
  unfold ceilf, floorf. rewrite !to_int_integer.
  pose proof (ceiling_floor x) as Hc.
  assert (Hfc : (Qfloor x <= Qceiling x)%Z).
  { rewrite Zle_Qle. eapply Qle_trans; [apply Qfloor_le | apply Qle_ceiling]. }
  change (- 2 ^ 31)%Z with (-2147483648)%Z.
  change (2 ^ 31 - 1)%Z with 2147483647%Z.
  destruct (Z.leb_spec (-2147483648) (Qceiling x)),
    (Z.leb_spec (Qceiling x) 2147483647),
    (Z.leb_spec (-2147483648) (Qfloor x)),
    (Z.leb_spec (Qfloor x) 2147483647); cbn [andb]; lia.
Qed.

(** A segment of length zero yields exactly the four vertices of its two
    endpoint splits. *)
Theorem wu_degenerate x y width height r g b :
  length (xiaolinWuLine x y x y width height r g b) = 4%nat.
Proof.
  destruct (vertex_count x y x y width height r g b)
    as (X0 & Y0 & X1 & Y1 & Ho & ->).
  assert (Hs : is_steep x y x y = false).
  { unfold is_steep. apply gtb_false.
    assert (E1 : y - y == 0) by ring. assert (E2 : x - x == 0) by ring.
    rewrite E1, E2. apply Qle_refl. }
  rewrite Hs in Ho. unfold orient in Ho.
  assert (Hg : gtb x x = false) by (apply gtb_false, Qle_refl).
  rewrite Hg in Ho. injection Ho as <- <- <- <-.
  pose proof (to_int_ceiling_floor x). lia.
Qed.

Lemma sweep_steep_colour width height r g b k n :
  forall x i,
    Forall (fun v => Vertex.r v = r /\ Vertex.g v = g /\ Vertex.b v = b)
      (sweep_steep width height r g b k n x i).
Proof.
  induction n as [|n IH]; intros x i; cbn [sweep_steep]; [constructor|].
  cbv zeta. constructor; [|constructor; [|apply IH]];
    cbn [Vertex.r Vertex.g Vertex.b pushVertex]; auto.
Qed.

Lemma sweep_flat_colour width height r g b k n :
  forall x i,
    Forall (fun v => Vertex.r v = r /\ Vertex.g v = g /\ Vertex.b v = b)
      (sweep_flat width height r g b k n x i).
Proof.
  induction n as [|n IH]; intros x i; cbn [sweep_flat]; [constructor|].
  cbv zeta. constructor; [|constructor; [|apply IH]];
    cbn [Vertex.r Vertex.g Vertex.b pushVertex]; auto.
Qed.

(** Every vertex carries the colour passed in. *)
Theorem wu_colour x0 y0 x1 y1 width height r g b :
  Forall (fun v => Vertex.r v = r /\ Vertex.g v = g /\ Vertex.b v = b)
    (xiaolinWuLine x0 y0 x1 y1 width height r g b).
Proof.
  rewrite xiaolinWuLine_shape.
  destruct (orient (is_steep x0 y0 x1 y1) x0 y0 x1 y1) as [[[X0 Y0] X1] Y1].
  rewrite rasterize_shape. cbv zeta.
  repeat (apply Forall_app; split).
  - unfold endpoint. destruct (is_steep x0 y0 x1 y1);
      repeat constructor.
  - unfold endpoint. destruct (is_steep x0 y0 x1 y1);
      repeat constructor.
  - destruct (is_steep x0 y0 x1 y1);
      [apply sweep_steep_colour | apply sweep_flat_colour].
Qed.

(** ** A horizontal segment between pixel centres *)

#[local] Existing Instance floorf_compat.
#[local] Existing Instance fpart_compat.
#[local] Existing Instance rfpart_compat.

Lemma fpart_integer z : fpart (inject_Z z) == 0.
Proof. unfold fpart, floorf. rewrite Qfloor_Z. ring. Qed.

Lemma floorf_integer z : floorf (inject_Z z) = inject_Z z.
Proof. unfold floorf. now rewrite Qfloor_Z. Qed.

Lemma ceilf_integer z : ceilf (inject_Z z) = inject_Z z.
Proof. unfold ceilf. now rewrite Qceiling_Z. Qed.

(** The lower pixel of the pair is on row [c] with full coverage, the upper
    pixel on row [c + 1] with none. *)
Local Abbreviation on_row c height :=
  (fun p : Vertex.t * Vertex.t =>
     Vertex.alpha (fst p) == 1 /\ Vertex.alpha (snd p) == 0
     /\ Vertex.y (fst p) == normalize (inject_Z c) height
     /\ Vertex.y (snd p) == normalize (inject_Z (c + 1)) height).

Lemma endpoint_row width height r g b c xpxl yend xgap :
  yend == inject_Z c -> xgap == 1 ->
  Forall (on_row c height)
    (pairs (endpoint width height r g b false xpxl (floorf yend) yend xgap)).
Proof.
  intros Hy Hg. unfold endpoint. cbv zeta. cbn [pairs].
  constructor; [|constructor].
  cbn [fst snd Vertex.alpha Vertex.y pushVertex]. unfold rfpart, normalize.
  rewrite Hy, Hg, fpart_integer, floorf_integer, inject_Z_plus.
  change (inject_Z 1) with 1. repeat split; try reflexivity; ring.
Qed.

Lemma sweep_flat_row width height r g b c k n :
  k == 0 ->
  forall x i, i == inject_Z c ->
    Forall (on_row c height)
      (pairs (sweep_flat width height r g b k n x i)).
Proof.
  intros Hk. induction n as [|n IH]; intros x i Hi; cbn [sweep_flat pairs];
    [constructor|].
  cbv zeta. constructor; [|apply IH; rewrite Hi, Hk; ring].
  cbn [fst snd Vertex.alpha Vertex.y pushVertex]. unfold rfpart, normalize.
  rewrite Hi, fpart_integer, floorf_integer, inject_Z_plus.
  change (inject_Z 1) with 1. repeat split; try reflexivity; ring.
Qed.

Lemma rasterize_row width height r g b lo hi c :
  (lo <= hi)%Z ->
  Forall (on_row c height)
    (pairs (rasterize width height r g b false
              (inject_Z lo) (inject_Z c) (inject_Z hi) (inject_Z c))).
Proof.
  intros Hle. rewrite rasterize_shape. cbv zeta.
  set (k := gradient (inject_Z lo) (inject_Z c) (inject_Z hi) (inject_Z c)).
  assert (H1 : yend1 (inject_Z lo) (inject_Z c) (inject_Z hi) (inject_Z c)
               == inject_Z c).
  { unfold yend1. fold k. rewrite floorf_integer. ring. }
  assert (H2 : yend2 (inject_Z lo) (inject_Z c) (inject_Z hi) (inject_Z c)
               == inject_Z c).
  { unfold yend2. fold k. rewrite ceilf_integer. ring. }
  assert (G1 : xgap1 (inject_Z lo) == 1)
    by (unfold xgap1; rewrite floorf_integer; ring).
  assert (G2 : xgap2 (inject_Z hi) == 1)
    by (unfold xgap2; rewrite ceilf_integer; ring).
  pose proof (endpoint_row width height r g b c (floorf (inject_Z lo)) _ _ H1 G1)
    as E1.
  pose proof (endpoint_row width height r g b c (ceilf (inject_Z hi)) _ _ H2 G2)
    as E2.
  unfold endpoint in *. cbv zeta in *. cbn [app pairs] in *.
  inversion E1 as [|? ? P1 _]; subst. inversion E2 as [|? ? P2 _]; subst.
  constructor; [exact P1|]. constructor; [exact P2|].
  rewrite floorf_integer, ceilf_integer.
  destruct (Z.eq_dec lo hi) as [->|Hne].
  - replace (Z.to_nat (to_int (inject_Z hi) - (to_int (inject_Z hi) + 1)))
      with 0%nat by lia.
    constructor.
  - assert (Hk : k == 0).
    { assert (Hd : ~ inject_Z hi - inject_Z lo == 0).
      { intros Hq. apply Hne. apply inject_Z_injective. lra. }
      unfold k, gradient, eqb.
      destruct (Qeq_bool (inject_Z hi - inject_Z lo) 0) eqn:Hz.
      - apply Qeq_bool_iff in Hz. contradiction.
      - field. exact Hd. }
    apply sweep_flat_row; [exact Hk|]. rewrite H1, Hk. ring.
Qed.

(** A horizontal segment between two pixels of row [c], in either
    direction, is drawn on row [c] alone: in every pair the pixel of row
    [c] has coverage 1 and the pixel of row [c + 1] has coverage 0. *)
Theorem wu_pixel_row a b c width height r g bl :
  Forall (fun p =>
            Vertex.alpha (fst p) == 1 /\ Vertex.alpha (snd p) == 0
            /\ Vertex.y (fst p) == normalize (inject_Z c) height
            /\ Vertex.y (snd p) == normalize (inject_Z (c + 1)) height)
    (pairs (xiaolinWuLine (inject_Z a) (inject_Z c) (inject_Z b) (inject_Z c)
              width height r g bl)).
Proof.
  rewrite xiaolinWuLine_shape.
  assert (Hs : is_steep (inject_Z a) (inject_Z c) (inject_Z b) (inject_Z c)
               = false).
  { unfold is_steep. apply gtb_false.
    assert (E : inject_Z c - inject_Z c == 0) by ring.
    rewrite E. apply Qabs_nonneg. }
  rewrite Hs. unfold orient.
  destruct (gtb (inject_Z a) (inject_Z b)) eqn:Hg;
    [apply gtb_true in Hg | apply gtb_false in Hg].
  - apply rasterize_row. rewrite <- Zlt_Qlt in Hg. lia.
  - apply rasterize_row. rewrite <- Zle_Qle in Hg. exact Hg.
Qed.

End WuShape.

(** * More on generateLines *)

Module RadialShape.
Import Radial RadialProofs Lra.

(** For a positive step the loop ends within 360 iterations; it returns at
    least one and at most 360 segments, and a single segment when the step
    is 360 or more. *)
Theorem radial_count x0 y0 radius angleStep :
  (0 < angleStep <= 2 ^ 31 - 1)%Z ->
  exists first rest,
    (forall fuel, (360 <= fuel)%nat ->
       generateLines fuel x0 y0 radius angleStep = Some (first :: rest))
    /\ (length rest < 360)%nat
    /\ ((360 <= angleStep)%Z -> rest = []).
Proof.
  intros [Hstep Hint]. change (2 ^ 31)%Z with 2147483648%Z in Hint.
  destruct (iterations_spec angleStep Hstep) as (Hge & Hlt & Hn & Hmax).
  set (n := Z.to_nat ((359 + angleStep) / angleStep)) in *.
  assert (Hn360 : (n <= 360)%nat) by nia.
  destruct (loop_run x0 y0 radius angleStep Hstep n 0) as [Hrun _];
    [change (2 ^ 31)%Z with 2147483648%Z; lia
    |change (2 ^ 31)%Z with 2147483648%Z; lia|lia|right; lia|].
  destruct n as [|n]; [lia|]. cbn [seq map] in Hrun.
  eexists. eexists. split; [|split].
  - intros fuel Hf. unfold generateLines. apply Hrun. lia.
  - rewrite length_map, length_seq. lia.
  - intros Hbig. assert (n = 0%nat) by nia. subst n. reflexivity.
Qed.

Lemma radial_count_witness :
  exists first rest,
    (forall fuel, (360 <= fuel)%nat ->
       generateLines fuel 640 360 800 15 = Some (first :: rest))
    /\ (length rest < 360)%nat
    /\ ((360 <= 15)%Z -> rest = []).
Proof.
  apply (radial_count 640 360 800 15). split; vm_compute; [reflexivity|discriminate].
Defined.

End RadialShape.

(** * processInput *)

Module InputProofs.
Import Input.
Open Scope Z_scope.

Lemma toggle c : c = 0 \/ c = 1 -> Z.rem (c + 1) 2 = (c + 1) mod 2.
Proof. intros [->| ->]; reflexivity. Qed.

Lemma calls_cons k keys s :
  calls (k :: keys) s = calls keys (processInput (fst k) (snd k) s).
Proof. reflexivity. Qed.

Lemma step_curve escape cState s :
  CURVE s = 0 \/ CURVE s = 1 ->
  let s' := processInput escape cState s in
  (CURVE s' = 0 \/ CURVE s' = 1)
  /\ CURVE s' = (CURVE s + Z.of_nat (presses (cWasPressed s) [cState])) mod 2
  /\ length (printed s')
     = (length (printed s) + presses (cWasPressed s) [cState])%nat
  /\ cWasPressed s'
     = (if cState =? GLFW_PRESS then true
        else if cState =? GLFW_RELEASE then false else cWasPressed s).
Proof.
  intros Hc. unfold processInput. cbn [presses].
  destruct (escape =? GLFW_PRESS); cbn [CURVE cWasPressed shouldClose printed];
    destruct (Z.eqb_spec cState GLFW_PRESS) as [->|Hp];
    cbn [andb negb];
    try (destruct (cWasPressed s) eqn:Hw; cbn [andb negb]);
    try (destruct (Z.eqb_spec cState GLFW_RELEASE));
    cbn [CURVE cWasPressed shouldClose printed Z.eqb GLFW_PRESS GLFW_RELEASE];
    try rewrite Hw; rewrite ?length_app; cbn [length];
    rewrite ?toggle by exact Hc;
    destruct Hc as [-> | ->]; repeat split; auto; try lia.
Qed.

Lemma presses_cons w c rest :
  presses w (c :: rest)
  = Nat.add (presses w [c])
      (presses (if c =? GLFW_PRESS then true
                else if c =? GLFW_RELEASE then false else w) rest).
Proof.
  cbn [presses]. destruct (c =? GLFW_PRESS); [lia|].
  destruct (c =? GLFW_RELEASE); reflexivity.
Qed.

Lemma calls_curve keys :
  forall s,
    CURVE s = 0 \/ CURVE s = 1 ->
    let n := presses (cWasPressed s) (map snd keys) in
    (CURVE (calls keys s) = 0 \/ CURVE (calls keys s) = 1)
    /\ CURVE (calls keys s) = (CURVE s + Z.of_nat n) mod 2
    /\ length (printed (calls keys s)) = (length (printed s) + n)%nat.
Proof.
  induction keys as [|[e c] keys IH]; intros s Hc; cbv zeta.
  - cbn [calls fold_left map presses]. rewrite Z.add_0_r, Nat.add_0_r.
    destruct Hc as [-> | ->]; auto.
  - rewrite calls_cons. cbn [fst snd map].
    destruct (step_curve e c s Hc) as (Hc1 & Hcurve & Hlen & Hwas).
    destruct (IH _ Hc1) as (Hc2 & Hcurve2 & Hlen2).
    rewrite presses_cons, <- Hwas.
    split; [exact Hc2|]. split.
    + rewrite Hcurve2, Hcurve, Z.add_mod_idemp_l by lia.
      f_equal. lia.
    + rewrite Hlen2, Hlen. lia.
Qed.

(** From the initial state, after any sequence of calls, [CURVE] is 0 or 1
    and is the parity of the number of calls that saw the C key go down,
    and one line was printed for each of them. *)
Theorem curve_is_press_parity keys :
  let s := calls keys initial in
  let n := presses false (map snd keys) in
  (CURVE s = 0 \/ CURVE s = 1)
  /\ CURVE s = Z.of_nat n mod 2
  /\ length (printed s) = n.
Proof.
  cbv zeta. destruct (calls_curve keys initial (or_introl eq_refl))
    as (H1 & H2 & H3).
  cbn [initial CURVE cWasPressed printed length] in H1, H2, H3.
  split; [exact H1|]. split; [exact H2|exact H3].
Qed.

Lemma presses_held w n :
  presses w (repeat GLFW_PRESS n)
  = if w then 0%nat else match n with O => 0%nat | S _ => 1%nat end.
Proof.
  revert w. induction n as [|n IH]; intros w; cbn [repeat presses].
  - now destruct w.
  - cbn [GLFW_PRESS Z.eqb]. rewrite IH. now destruct w.
Qed.

(** A key held down toggles once: from a state in which the key counted as
    released, any positive number of calls that all see C pressed change
    [CURVE] to the other value and print one line, however long the key is
    held. *)
Theorem held_key_toggles_once escapes s :
  CURVE s = 0 \/ CURVE s = 1 ->
  cWasPressed s = false ->
  escapes <> [] ->
  let s' := calls (map (fun e => (e, GLFW_PRESS)) escapes) s in
  CURVE s' = 1 - CURVE s
  /\ length (printed s') = S (length (printed s))
  /\ cWasPressed s' = true.
Proof.
  intros Hc Hw Hne. cbv zeta.
  destruct (calls_curve (map (fun e => (e, GLFW_PRESS)) escapes) s Hc)
    as (_ & Hcurve & Hlen).
  rewrite map_map in Hcurve, Hlen. cbn [snd] in Hcurve, Hlen.
  assert (Hrep : map (fun _ : Z => GLFW_PRESS) escapes
                 = repeat GLFW_PRESS (length escapes)).
  { clear. induction escapes as [|e l IH]; cbn; [reflexivity|now rewrite IH]. }
  rewrite Hrep, presses_held, Hw in Hcurve, Hlen.
  destruct escapes as [|e0 escapes]; [contradiction|]. cbn [length] in *.
  split; [|split].
  - rewrite Hcurve. destruct Hc as [-> | ->]; reflexivity.
  - rewrite Hlen. lia.
  - clear. cbn [map]. rewrite calls_cons. cbn [fst snd].
    assert (H1 : forall e s, cWasPressed (processInput e GLFW_PRESS s) = true).
    { intros e t. unfold processInput.
      destruct (e =? GLFW_PRESS); cbn [CURVE cWasPressed shouldClose printed];
        destruct (cWasPressed t) eqn:E; cbn; auto. }
    generalize (processInput e0 GLFW_PRESS s), (H1 e0 s).
    induction escapes as [|e l IH]; intros t Ht; [exact Ht|].
    cbn [map]. rewrite calls_cons. apply IH, H1.
Qed.

Lemma held_key_toggles_once_witness :
  let s' := calls (map (fun e => (e, GLFW_PRESS)) [0; 0; 0]) initial in
  CURVE s' = 1 - CURVE initial
  /\ length (printed s') = S (length (printed initial))
  /\ cWasPressed s' = true.
Proof.
  apply (held_key_toggles_once [0; 0; 0] initial);
    [left; reflexivity | reflexivity | discriminate].
Defined.

(** The close flag is a latch: after any sequence of calls it is set
    exactly when it was set before or some call saw Escape pressed;
    [processInput] never clears it. *)
Theorem close_flag_latched keys s :
  shouldClose (calls keys s)
  = shouldClose s || existsb (fun k => fst k =? GLFW_PRESS) keys.
Proof.
  revert s. induction keys as [|[e c] keys IH]; intros s.
  - cbn [calls fold_left existsb]. now rewrite orb_false_r.
  - rewrite calls_cons, IH. cbn [fst snd existsb].
    rewrite orb_assoc. f_equal.
    unfold processInput.
    destruct (e =? GLFW_PRESS); cbn [CURVE cWasPressed shouldClose printed];
      destruct ((c =? GLFW_PRESS) && negb (cWasPressed s));
      destruct (c =? GLFW_RELEASE);
      cbn [CURVE cWasPressed shouldClose printed];
      rewrite ?orb_true_r, ?orb_false_r; reflexivity.
Qed.

End InputProofs.

(** * The sine wave of the render loop *)

Module SineWaveProofs.
Import SineWave Lqa.
Open Scope Q_scope.

Section Frame.

Variable sin : Q -> Q.
Variable currentFrame : Q.

Lemma columns_lengths n :
  forall i,
    length (fst (columns sin currentFrame n i)) = (2 * n)%nat
    /\ length (snd (columns sin currentFrame n i)) = (2 * n)%nat.
Proof.
  induction n as [|n IH]; intros i; cbn [columns]; [now split|].
  unfold column. cbv zeta.
  destruct (columns sin currentFrame n (i + 1)) as [bs ws] eqn:E.
  specialize (IH (i + 1)%Z). rewrite E in IH. cbn [fst snd] in *.
  cbn [app length]. lia.
Qed.

(** What holds of the pair of one column whatever [sin] returns. *)
Local Abbreviation split_pair :=
  (fun p : Vertex.t * Vertex.t =>
     Wu.coverage_sum p == 1
     /\ 0 < Vertex.alpha (fst p) <= 1
     /\ 0 <= Vertex.alpha (snd p) < 1
     /\ Vertex.x (fst p) = Vertex.x (snd p)
     /\ Vertex.y (snd p) - Vertex.y (fst p) == 2 / inject_Z SCR_HEIGHT).

Lemma columns_pairs n :
  forall i, Forall split_pair (Wu.pairs (snd (columns sin currentFrame n i))).
Proof.
  induction n as [|n IH]; intros i; cbn [columns]; [constructor|].
  unfold column. cbv zeta.
  destruct (columns sin currentFrame n (i + 1)) as [bs ws] eqn:E.
  specialize (IH (i + 1)%Z). rewrite E in IH. cbn [fst snd] in *.
  cbn [app Wu.pairs]. constructor; [|exact IH].
  unfold Wu.coverage_sum. cbn [fst snd Vertex.alpha Vertex.x Vertex.y].
  set (y := of_int (SCR_HEIGHT / 2)
            + amplitude * sin (frequency * of_int (x_start + i) + currentFrame)).
  pose proof (WuProofs.fpart_range y) as F. unfold Wu.fpart in F.
  split; [ring|]. split; [lra|]. split; [lra|]. split; [reflexivity|].
  change (of_int SCR_HEIGHT) with 720. change (inject_Z SCR_HEIGHT) with 720.
  field.
Qed.

Hypothesis sin_range : forall t, -1 <= sin t <= 1.

Lemma columns_in_view n :
  forall i,
    (0 <= i)%Z -> (i + Z.of_nat n <= 1181)%Z ->
    Forall (fun q => in_view (fst q) (snd q))
      (Bresenham.samples (fst (columns sin currentFrame n i)))
    /\ Forall (fun v => in_view (Vertex.x v) (Vertex.y v))
         (snd (columns sin currentFrame n i)).
Proof using sin_range.
  induction n as [|n IH]; intros i Hlo Hhi; cbn [columns];
    [split; constructor|].
  unfold column. cbv zeta.
  destruct (columns sin currentFrame n (i + 1)) as [bs ws] eqn:E.
  destruct (IH (i + 1)%Z ltac:(lia) ltac:(lia)) as [IHb IHw].
  rewrite E in IHb, IHw. cbn [fst snd] in *.
  cbn [app Bresenham.samples].
  set (x := of_int (x_start + i)).
  set (y := of_int (SCR_HEIGHT / 2)
            + amplitude * sin (frequency * x + currentFrame)).
  assert (Hx : 50 <= x <= 1230).
  { unfold x, of_int, x_start. rewrite inject_Z_plus.
    assert (H0 : inject_Z 0 <= inject_Z i) by (rewrite <- Zle_Qle; lia).
    assert (H1 : inject_Z i <= inject_Z 1180) by (rewrite <- Zle_Qle; lia).
    change (inject_Z 0) with 0 in H0. change (inject_Z 1180) with 1180 in H1.
    change (inject_Z 50) with 50. lra. }
  assert (Hy : 160 <= y <= 560).
  { unfold y, amplitude. change (of_int (SCR_HEIGHT / 2)) with 360.
    pose proof (sin_range (frequency * x + currentFrame)). lra. }
  assert (Hf : 160 <= floorf y <= 560).
  { unfold floorf. split.
    - change 160 with (inject_Z 160). rewrite <- Zle_Qle.
      rewrite <- (Qfloor_Z 160). apply Qfloor_resp_le.
      change (inject_Z 160) with 160. lra.
    - pose proof (Qfloor_le y). lra. }
  unfold in_view. cbn [fst snd Vertex.x Vertex.y].
  change (of_int SCR_WIDTH) with (inject_Z 1280).
  change (of_int SCR_HEIGHT) with (inject_Z 720).
  unfold Qdiv. change (/ inject_Z 1280) with (1 # 1280).
  change (/ inject_Z 720) with (1 # 720).
  split.
  - constructor; [|exact IHb]. cbn [fst snd]. split; lra.
  - constructor; [|constructor; [|exact IHw]];
      cbn [Vertex.x Vertex.y]; split; lra.
Qed.

End Frame.

(** In every frame the sine wave has 1181 columns: 1181 samples on the
    Bresenham side and 1181 pairs on the Wu side.  In each pair the two
    coverages sum to 1, the lower one lies in (0, 1] and the upper one in
    [0, 1), and the two vertices are in the same column, one pixel row
    apart.  This holds whatever [sin] returns. *)
Theorem sine_wave_pairs sin currentFrame :
  let '(verticesBresenham, verticesWu) := sineWave sin currentFrame in
  length (Bresenham.samples verticesBresenham) = 1181%nat
  /\ length (Wu.pairs verticesWu) = 1181%nat
  /\ length verticesWu = 2362%nat
  /\ Forall (fun p =>
               Wu.coverage_sum p == 1
               /\ 0 < Vertex.alpha (fst p) <= 1
               /\ 0 <= Vertex.alpha (snd p) < 1
               /\ Vertex.x (fst p) = Vertex.x (snd p)
               /\ Vertex.y (snd p) - Vertex.y (fst p)
                  == 2 / inject_Z SCR_HEIGHT) (Wu.pairs verticesWu).
Proof.
  unfold sineWave. cbv zeta.
  change (Z.to_nat (x_end - x_start + 1)) with 1181%nat.
  pose proof (columns_lengths sin currentFrame 1181 0) as [Lb Lw].
  pose proof (columns_pairs sin currentFrame 1181 0) as HP.
  destruct (columns sin currentFrame 1181 0) as [bv wv]. cbn [fst snd] in *.
  assert (Hs : forall v : list Q,
             length v = (2 * 1181)%nat -> length (Bresenham.samples v) = 1181%nat).
  { generalize 1181%nat. intros n v. revert v.
    induction n as [|n IH]; intros [|a [|c v]] H; cbn in H; try lia;
      cbn [Bresenham.samples length]; [reflexivity|].
    rewrite IH by lia. reflexivity. }
  assert (Hp : forall v : list Vertex.t,
             length v = (2 * 1181)%nat -> length (Wu.pairs v) = 1181%nat).
  { generalize 1181%nat. intros n v. revert v.
    induction n as [|n IH]; intros [|a [|c v]] H; cbn in H; try lia;
      cbn [Wu.pairs length]; [reflexivity|].
    rewrite IH by lia. reflexivity. }
  split; [apply Hs, Lb|]. split; [apply Hp, Lw|]. split; [exact Lw|exact HP].
Qed.

(** When [sin] stays within [-1, 1], every sample and every vertex of the
    sine wave lies strictly inside the square [-1, 1] x [-1, 1] that the
    window shows, in every frame. *)
Theorem sine_wave_in_view sin currentFrame :
  (forall t, -1 <= sin t <= 1) ->
  let '(verticesBresenham, verticesWu) := sineWave sin currentFrame in
  Forall (fun q => in_view (fst q) (snd q))
    (Bresenham.samples verticesBresenham)
  /\ Forall (fun v => in_view (Vertex.x v) (Vertex.y v)) verticesWu.
Proof.
  intros Hsin. unfold sineWave. cbv zeta.
  change (Z.to_nat (x_end - x_start + 1)) with 1181%nat.
  pose proof (columns_in_view sin currentFrame Hsin 1181 0
                ltac:(lia) ltac:(lia)) as H.
  destruct (columns sin currentFrame 1181 0) as [bv wv]. exact H.
Qed.

Lemma sine_wave_in_view_witness :
  let '(verticesBresenham, verticesWu) := sineWave (fun _ => 0) 0 in
  Forall (fun q => in_view (fst q) (snd q))
    (Bresenham.samples verticesBresenham)
  /\ Forall (fun v => in_view (Vertex.x v) (Vertex.y v)) verticesWu.
Proof. apply (sine_wave_in_view (fun _ => 0) 0). intros _. lra. Defined.

End SineWaveProofs.
